(** * Verification of [src/libtest/src/data/formatter.py]

    The script reads [./US/cities.txt], whose lines are [code;name],
    groups the names by code in a dictionary, and writes [./tmp.txt] with
    one line [code;name] per record, the names of each code ordered from
    the longest to the shortest.

    The embedding follows the script statement by statement.  Python
    strings are [string]s whose characters stand for code points below
    256; a [dict] is an association list in insertion order; the two files
    live in a finite map from paths to contents; an exception ends the run
    and is returned as a value. *)

From Stdlib Require Import Ascii NArith Lia.
From stdpp Require Import gmap strings list sorting.

Local Open Scope nat_scope.

(** ** Exceptions *)

Inductive exn : Type :=
| FileNotFoundError
| ValueError
| KeyError.

Inductive result (A : Type) : Type :=
| Ok (a : A)
| Raise (e : exn).
Arguments Ok {A} a.
Arguments Raise {A} e.

(** Sequencing: the first exception raised ends the computation. *)
#[global] Instance result_bind : MBind result := λ A B k r,
  match r with
  | Ok a => k a
  | Raise e => Raise e
  end.

(** ** Python strings *)

Module PyStr.

Definition LF : ascii := "010"%char.
Definition CR : ascii := "013"%char.
Definition SEMI : ascii := ";"%char.

(** [str.isspace] on one character: the code points below 256 that
    Python treats as whitespace are TAB, LF, VT, FF, CR, FS, GS, RS, US,
    SPACE, NEL (0x85) and NBSP (0xA0). *)
Definition isspace (c : ascii) : bool :=
  let n := N_of_ascii c in
  ((9 <=? n) && (n <=? 13) || (28 <=? n) && (n <=? 32)
   || (n =? 133) || (n =? 160))%N.

(** [len(x)] *)
Definition len (s : string) : nat := String.length s.

(** [s.lstrip()]: drop the leading whitespace. *)
Fixpoint lstrip (s : string) : string :=
  match s with
  | "" => ""
  | String c s' => if isspace c then lstrip s' else s
  end.

(** [s.rstrip()]: drop the trailing whitespace. *)
Fixpoint rstrip (s : string) : string :=
  match s with
  | "" => ""
  | String c s' =>
      match rstrip s' with
      | "" => if isspace c then "" else String c ""
      | r => String c r
      end
  end.

(** [s.strip()]: whitespace is removed at both ends. *)
Definition strip (s : string) : string := rstrip (lstrip s).

(** [s.split(sep)] for a one-character separator: every occurrence of
    the separator ends a field, so a string with [n] separators has
    [n + 1] fields. *)
Fixpoint split (sep : ascii) (s : string) : list string :=
  match s with
  | "" => [""]
  | String c s' =>
      if decide (c = sep) then "" :: split sep s'
      else match split sep s' with
           | [] => [String c ""]
           | f :: fs => String c f :: fs
           end
  end.

(** Number of occurrences of a character. *)
Fixpoint count (x : ascii) (s : string) : nat :=
  match s with
  | "" => 0
  | String c s' => (if decide (c = x) then 1 else 0) + count x s'
  end.

(** Every character of the string satisfies [p]. *)
Fixpoint all (p : ascii → bool) (s : string) : bool :=
  match s with
  | "" => true
  | String c s' => p c && all p s'
  end.

(** The part before the first [sep], and the part after it. *)
Fixpoint before (sep : ascii) (s : string) : string :=
  match s with
  | "" => ""
  | String c s' => if decide (c = sep) then "" else String c (before sep s')
  end.

Fixpoint after (sep : ascii) (s : string) : string :=
  match s with
  | "" => ""
  | String c s' => if decide (c = sep) then s' else after sep s'
  end.

(** Text files are opened with the default [newline=None]: on reading,
    the line ends CR LF and CR are both turned into LF. *)
Fixpoint universal_newlines (s : string) : string :=
  match s with
  | "" => ""
  | String c s' =>
      if decide (c = CR) then
        match s' with
        | String c' s'' =>
            if decide (c' = LF) then String LF (universal_newlines s'')
            else String LF (universal_newlines s')
        | "" => String LF ""
        end
      else String c (universal_newlines s')
  end.

(** Cut a text after each LF; the line keeps its LF, and a last line
    without LF is kept when it is not empty. *)
Fixpoint keepends (s : string) : list string :=
  match s with
  | "" => []
  | String c s' =>
      if decide (c = LF) then String LF "" :: keepends s'
      else match keepends s' with
           | [] => [String c ""]
           | l :: ls => String c l :: ls
           end
  end.

(** [f.readlines()] *)
Definition readlines (text : string) : list string :=
  keepends (universal_newlines text).

End PyStr.

Import PyStr.

(** ** The dictionary [states] *)

Module PyDict.

(** A [dict] from strings to lists of strings, as the sequence of its
    items in insertion order. *)
Definition dict : Type := list (string * list string).

Definition keys (d : dict) : list string := d.*1.

(** [d.setdefault(k, [])]: a missing key is added at the end with an
    empty list, a present key is left alone. *)
Fixpoint setdefault (k : string) (d : dict) : dict :=
  match d with
  | [] => [(k, [])]
  | (k', v) :: d' =>
      if decide (k' = k) then d else (k', v) :: setdefault k d'
  end.

(** [d[k].append(x)]: the subscript raises [KeyError] on a missing
    key; otherwise [x] is added at the end of the list stored there. *)
Fixpoint getitem_append (k x : string) (d : dict) : result dict :=
  match d with
  | [] => Raise KeyError
  | (k', v) :: d' =>
      if decide (k' = k) then Ok ((k', v ++ [x]) :: d')
      else d'' ← getitem_append k x d'; Ok ((k', v) :: d'')
  end.

(** [d.get(k, [])], used in statements only. *)
Fixpoint get (k : string) (d : dict) : list string :=
  match d with
  | [] => []
  | (k', v) :: d' => if decide (k' = k) then v else get k d'
  end.

End PyDict.

Import PyDict.

(** ** The built-in [sorted]

    [sorted(v, key=..., reverse=...)] is a stable sort: elements with
    equal keys keep their order, also when [reverse] is set.  It is
    modelled by a stable insertion sort; [sorted_unique] below shows that
    stability leaves no other choice for the returned list. *)

Section Sorted.
Context {A : Type} (key : A → nat) (reverse : bool).

(** [x], which stood before [y], may stay before it. *)
Definition in_order (x y : A) : bool :=
  if reverse then key y <=? key x else key x <=? key y.

Fixpoint insert_sorted (x : A) (v : list A) : list A :=
  match v with
  | [] => [x]
  | y :: v' => if in_order x y then x :: v else y :: insert_sorted x v'
  end.

Fixpoint sorted (v : list A) : list A :=
  match v with
  | [] => []
  | x :: v' => insert_sorted x (sorted v')
  end.
End Sorted.

(** ** The script *)

Definition cities_txt : string := "./US/cities.txt".
Definition tmp_txt : string := "./tmp.txt".

(** The files of the working directory: path to contents. *)
Abbreviation files := (gmap string string).

(** [code, name = fields]: unpacking into two names needs exactly two
    values, and raises [ValueError] otherwise. *)
Definition unpack2 (fields : list string) : result (string * string) :=
  match fields with
  | [code; name] => Ok (code, name)
  | _ => Raise ValueError
  end.

(** [line.split(";")] followed by the unpacking. *)
Definition parse_line (line : string) : result (string * string) :=
  unpack2 (split SEMI line).

(** The body of the grouping loop, lines 15 to 17. *)
Definition group_line (line : string) (states : dict) : result dict :=
  '(code, name) ← parse_line line;
  let states := setdefault code states in
  getitem_append code name states.

(** [for line in content: ...] *)
Fixpoint group (content : list string) (states : dict) : result dict :=
  match content with
  | [] => Ok states
  | line :: content' =>
      states' ← group_line line states; group content' states'
  end.

(** [w.write(f"{k};{city}\n")]: the text is added at the end of what
    was written so far.  The text is kept as the script hands it over,
    with LF as the line end. *)
Definition write (w : string) (k city : string) : string :=
  w +:+ k +:+ ";" +:+ city +:+ String LF "".

(** [for city in v: w.write(...)] *)
Fixpoint write_cities (k : string) (v : list string) (w : string) : string :=
  match v with
  | [] => w
  | city :: v' => write_cities k v' (write w k city)
  end.

(** [for k, v in states.items(): v = sorted(...); for city in v: ...] *)
Fixpoint write_states (items : dict) (w : string) : string :=
  match items with
  | [] => w
  | (k, v) :: items' =>
      let v := sorted len true v in
      write_states items' (write_cities k v w)
  end.

(** Lines 9 to 11: [f.readlines()], then every line is stripped.  A
    missing input file makes [open] raise.  A path holds a text that can
    be read or holds nothing: the other failures of [open] and of the
    decoding (a directory in the place of the file, bytes that do not
    decode) are outside the model. *)
Definition load (fs : files) : result (list string) :=
  match fs !! cities_txt with
  | None => Raise FileNotFoundError
  | Some text =>
      let content := readlines text in
      Ok (strip <$> content)
  end.

(** The whole script.  The input is read and grouped first; [tmp.txt] is
    opened (and so emptied) only after the grouping loop has ended, and
    holds what was written when the [with] block is left.  The output
    path is taken to be writable: a failure of the second [open] or of
    [write] is outside the model. *)
Definition formatter (fs : files) : result unit * files :=
  match load fs with
  | Raise e => (Raise e, fs)
  | Ok content =>
      match group content [] with
      | Raise e => (Raise e, fs)
      | Ok states => (Ok (), <[tmp_txt := write_states states ""]> fs)
      end
  end.

(** ** Vocabulary of the statements *)

(** A line as [readlines] returns it: at most one LF, at its end. *)
Definition raw_line (l : string) : Prop :=
  ∃ s, (l = s +:+ String LF "" ∨ l = s) ∧ count LF s = 0.

(** A stripped line of the input: nothing left to strip, and no line end
    inside. *)
Definition clean (l : string) : Prop :=
  strip l = l ∧ count LF l = 0 ∧ count CR l = 0.

(** The lines that the grouping loop receives for a given input text. *)
Definition content (text : string) : list string := strip <$> readlines text.

(** Every line holds exactly one separator. *)
Definition well_formed (text : string) : Prop :=
  Forall (λ line, count SEMI line = 1) (content text).

(** The records of a list of lines: each line parsed in turn, as the loop
    does; the first line that does not parse gives its exception. *)
Fixpoint parse_all (lines : list string) : result (list (string * string)) :=
  match lines with
  | [] => Ok []
  | line :: lines' =>
      p ← parse_line line; ps ← parse_all lines'; Ok (p :: ps)
  end.

(** The records of a text file, read the way the script reads its input. *)
Definition records (text : string) : result (list (string * string)) :=
  parse_all (content text).

(** The codes of a list in the order of their first occurrence. *)
Fixpoint first_occ (l : list string) : list string :=
  match l with
  | [] => []
  | x :: l' => x :: filter (λ y, y ≠ x) (first_occ l')
  end.

(** The names recorded for code [k], in the order of the records. *)
Definition cities_of (k : string) (ps : list (string * string)) : list string :=
  (filter (λ p, p.1 = k) ps).*2.

(** What lines 16 and 17 do to the dictionary for one record. *)
Fixpoint add (k c : string) (d : dict) : dict :=
  match d with
  | [] => [(k, [c])]
  | (k', v) :: d' =>
      if decide (k' = k) then (k', v ++ [c]) :: d' else (k', v) :: add k c d'
  end.

(** The dictionary that grouping the records [ps] must give. *)
Definition table (ps : list (string * string)) : dict :=
  (λ k, (k, cities_of k ps)) <$> first_occ ps.*1.

(** The records in the order in which the writing loops visit them. *)
Definition emitted (d : dict) : list (string * string) :=
  d ≫= λ kv, (kv.1,.) <$> sorted len true kv.2.

(** The records that a run on the records [ps] writes, in order. *)
Definition output (ps : list (string * string)) : list (string * string) :=
  emitted (table ps).

(** One output line, and the text of a list of records. *)
Definition render (p : string * string) : string :=
  p.1 +:+ ";" +:+ p.2 +:+ String LF "".

Fixpoint render_all (ps : list (string * string)) : string :=
  match ps with
  | [] => ""
  | p :: ps' => render p +:+ render_all ps'
  end.

(** A record whose line reads back as itself. *)
Definition good (p : string * string) : Prop :=
  clean (p.1 +:+ String SEMI p.2)
  ∧ count SEMI p.1 = 0 ∧ count SEMI p.2 = 0.

(** Equal elements of the list stand next to each other. *)
Definition contiguous (l : list string) : Prop :=
  ∀ i j m x y, i ≤ j → j ≤ m →
    l !! i = Some x → l !! m = Some x → l !! j = Some y → y = x.

(** The string neither starts nor ends with whitespace. *)
Definition no_space_ends (s : string) : Prop :=
  (∀ c t, s = String c t → isspace c = false)
  ∧ (∀ t c, s = t +:+ String c "" → isspace c = false).

(** ** Sample inputs *)

Definition eol : string := String LF "".

(** Two codes, interleaved, with names of equal length and spaces around
    one line. *)
Definition sample_text : string :=
  "AB;city_name_z" +:+ eol +:+ "CA;foo" +:+ eol +:+
  "  AB;city_name_xxx " +:+ eol +:+ "AB;city_name_yy" +:+ eol +:+
  "CA;bar" +:+ eol +:+ "AB;" +:+ eol.

Definition sample_fs : files :=
  {[ cities_txt := sample_text; tmp_txt := "old" ]}.

(** The same input next to other files. *)
Definition sample_fs' : files :=
  {[ cities_txt := sample_text; "./notes.txt" := "n" ]}.

(** A line without separator after a good one. *)
Definition broken_text : string :=
  "AB;x" +:+ eol +:+ "NOCODEHERE" +:+ eol.

Definition broken_fs : files :=
  {[ cities_txt := broken_text; tmp_txt := "old" ]}.

(** A line with two separators between good ones. *)
Definition crowded_text : string :=
  "AB;x" +:+ eol +:+ "CA;San;Jose" +:+ eol +:+ "AB;y" +:+ eol.

Definition crowded_fs : files :=
  {[ cities_txt := crowded_text; tmp_txt := "old" ]}.

(** A blank line at the end of a good input. *)
Definition blank_text : string :=
  "AB;x" +:+ eol +:+ "  " +:+ eol.

Definition blank_fs : files :=
  {[ cities_txt := blank_text; tmp_txt := "old" ]}.

(** No input file at all. *)
Definition no_input_fs : files := {[ tmp_txt := "old" ]}.

(** The sample input with the line ends of other platforms. *)
Definition crlf_text : string :=
  "AB;x" +:+ String CR eol +:+ "CA;foo" +:+ String CR "" +:+
  "AB;long" +:+ eol.

(** ** Vocabulary of the further properties *)

(** [sep.join(fields)] for a one-character separator. *)
Fixpoint join (sep : ascii) (fields : list string) : string :=
  match fields with
  | [] => ""
  | f :: fields' =>
      match fields' with
      | [] => f
      | _ :: _ => f +:+ String sep (join sep fields')
      end
  end.

(** The texts of a list, one after the other. *)
Fixpoint joined (l : list string) : string :=
  match l with
  | [] => ""
  | s :: l' => s +:+ joined l'
  end.

(** The line ends that text mode reads as one LF: LF, CR LF, and CR. *)
Definition line_end (e : string) : Prop :=
  e = String LF "" ∨ e = String CR (String LF "") ∨ e = String CR "".

(** The text of the given lines, each followed by the line end [e]. *)
Definition with_ends (e : string) (lines : list string) : string :=
  joined ((λ l, l +:+ e) <$> lines).

(** The line of a record, without its line end. *)
Definition line_of (p : string * string) : string :=
  p.1 +:+ String SEMI p.2.

(** * Properties *)

(** ** Strings *)

Section StringFacts.
Implicit Types (s t u w : string) (c x sep : ascii).

Lemma str_app_cons c s t : String c s +:+ t = String c (s +:+ t).
Proof. reflexivity. Qed.

Lemma str_app_nil_r s : s +:+ "" = s.
Proof. induction s as [|c s IH]; [done|]. by rewrite str_app_cons, IH. Qed.

Lemma str_app_assoc s t u : (s +:+ t) +:+ u = s +:+ t +:+ u.
Proof.
  induction s as [|c s IH]; [done|]. by rewrite !str_app_cons, IH.
Qed.

Lemma count_app x s t : count x (s +:+ t) = count x s + count x t.
Proof.
  induction s as [|c s IH]; [done|].
  rewrite str_app_cons. simpl. rewrite IH. lia.
Qed.

Lemma count_cons x c s :
  count x (String c s) = (if decide (c = x) then 1 else 0) + count x s.
Proof. reflexivity. Qed.

Lemma all_app p s t : all p (s +:+ t) = all p s && all p t.
Proof.
  induction s as [|c s IH]; [done|].
  rewrite str_app_cons. simpl. by rewrite IH, andb_assoc.
Qed.

Lemma len_app s t : len (s +:+ t) = len s + len t.
Proof.
  unfold len. induction s as [|c s IH]; [done|].
  rewrite str_app_cons. simpl. by rewrite IH.
Qed.

(** *** [split] *)

Lemma split_length sep s : length (split sep s) = S (count sep s).
Proof.
  induction s as [|c s IH]; [done|]. simpl.
  case_decide; simpl; [by rewrite IH|].
  destruct (split sep s); simpl in *; lia.
Qed.

Lemma split_no_sep sep s : count sep s = 0 → split sep s = [s].
Proof.
  induction s as [|c s IH]; [done|]. simpl.
  case_decide; [done|]. intros Hs. by rewrite IH.
Qed.

Lemma split_app_sep sep s t :
  count sep s = 0 → split sep (s +:+ String sep t) = s :: split sep t.
Proof.
  induction s as [|c s IH]; intros Hs.
  - simpl. by rewrite decide_True.
  - rewrite str_app_cons. simpl in *.
    case_decide; [done|]. by rewrite IH.
Qed.

Lemma before_after sep s :
  0 < count sep s →
  s = before sep s +:+ String sep (after sep s)
  ∧ count sep (before sep s) = 0
  ∧ count sep s = S (count sep (after sep s)).
Proof.
  induction s as [|c s IH]; simpl; [lia|].
  case_decide as Hc.
  - intros _. by subst.
  - intros Hs. destruct (IH Hs) as (Heq & Hb & Ha).
    simpl. rewrite decide_False by done.
    rewrite str_app_cons. by rewrite <-Heq.
Qed.

(** *** [strip] *)

Lemma rstrip_cons c s :
  rstrip (String c s) =
    match rstrip s with
    | "" => if isspace c then "" else String c ""
    | r => String c r
    end.
Proof. reflexivity. Qed.

Lemma lstrip_all s : all isspace s → lstrip s = "".
Proof.
  induction s as [|c s IH]; [done|]. simpl.
  destruct (isspace c); [exact IH | done].
Qed.

Lemma rstrip_all s : all isspace s → rstrip s = "".
Proof.
  induction s as [|c s IH]; [done|]. simpl.
  destruct (isspace c); [|done]. intros Hs. by rewrite IH.
Qed.

Lemma lstrip_spec s : ∃ lead, s = lead +:+ lstrip s ∧ all isspace lead.
Proof.
  induction s as [|c s (lead & Heq & Hlead)]; [by exists ""|]. simpl.
  destruct (isspace c) eqn:Hc.
  - exists (String c lead). rewrite str_app_cons, <-Heq. simpl.
    by rewrite Hc.
  - by exists "".
Qed.

Lemma rstrip_spec s : ∃ trail, s = rstrip s +:+ trail ∧ all isspace trail.
Proof.
  induction s as [|c s (trail & Heq & Htrail)]; [by exists ""|].
  rewrite rstrip_cons. destruct (rstrip s) as [|c' r].
  - change (s = trail) in Heq. subst s. destruct (isspace c) eqn:Hc.
    + exists (String c trail). split; [done|]. simpl. by rewrite Hc.
    + by exists trail.
  - exists trail. by rewrite str_app_cons, <-Heq.
Qed.

Lemma strip_spec s :
  ∃ lead trail,
    s = lead +:+ strip s +:+ trail ∧ all isspace lead ∧ all isspace trail.
Proof.
  destruct (lstrip_spec s) as (lead & Hl & Hlead).
  destruct (rstrip_spec (lstrip s)) as (trail & Hr & Htrail).
  exists lead, trail. unfold strip. by rewrite <-Hr.
Qed.

Lemma rstrip_app_space s w : all isspace w → rstrip (s +:+ w) = rstrip s.
Proof.
  intros Hw. induction s as [|c s IH]; [by apply rstrip_all|].
  by rewrite str_app_cons, !rstrip_cons, IH.
Qed.

Lemma lstrip_app_space s w :
  all isspace w →
  lstrip (s +:+ w) = if all isspace s then "" else lstrip s +:+ w.
Proof.
  intros Hw. induction s as [|c s IH]; [by apply lstrip_all|].
  rewrite str_app_cons. simpl. by destruct (isspace c).
Qed.

Lemma strip_app_space s w : all isspace w → strip (s +:+ w) = strip s.
Proof.
  intros Hw. unfold strip. rewrite lstrip_app_space by done.
  destruct (all isspace s) eqn:Hs.
  - by rewrite lstrip_all by by rewrite Hs.
  - by apply rstrip_app_space.
Qed.

Lemma lstrip_lstrip s : lstrip (lstrip s) = lstrip s.
Proof.
  induction s as [|c s IH]; [done|]. simpl.
  destruct (isspace c) eqn:Hc; [done|]. simpl. by rewrite Hc.
Qed.

Lemma rstrip_rstrip s : rstrip (rstrip s) = rstrip s.
Proof.
  induction s as [|c s IH]; [done|]. rewrite rstrip_cons.
  destruct (rstrip s) as [|c' r].
  - destruct (isspace c) eqn:Hc; [done|]. simpl. by rewrite Hc.
  - by rewrite rstrip_cons, IH.
Qed.

Lemma lstrip_len s : len (lstrip s) ≤ len s.
Proof.
  unfold len. induction s as [|c s IH]; [done|]. simpl.
  destruct (isspace c); simpl; lia.
Qed.

Lemma lstrip_rstrip s : lstrip s = s → lstrip (rstrip s) = rstrip s.
Proof.
  destruct s as [|c s]; [done|]. simpl.
  destruct (isspace c) eqn:Hc.
  - intros Hs. pose proof (lstrip_len s) as Hlen.
    rewrite Hs in Hlen. unfold len in Hlen. simpl in Hlen. lia.
  - intros _. destruct (rstrip s); simpl; by rewrite Hc.
Qed.

Lemma strip_lstrip s : lstrip (strip s) = strip s.
Proof. apply lstrip_rstrip, lstrip_lstrip. Qed.

Lemma strip_rstrip s : rstrip (strip s) = strip s.
Proof. apply rstrip_rstrip. Qed.

Lemma strip_strip s : strip (strip s) = strip s.
Proof. unfold strip at 1. by rewrite strip_lstrip, strip_rstrip. Qed.

Lemma strip_count x s : count x (strip s) ≤ count x s.
Proof.
  destruct (strip_spec s) as (lead & trail & Heq & _).
  rewrite Heq at 2. rewrite !count_app. lia.
Qed.

(** *** [readlines] *)

Lemma universal_newlines_id s : count CR s = 0 → universal_newlines s = s.
Proof.
  induction s as [|c s IH]; [done|]. simpl.
  case_decide; [done|]. intros Hs. by rewrite IH.
Qed.

Lemma universal_newlines_CR s : count CR (universal_newlines s) = 0.
Proof.
  cut (count CR (universal_newlines s) = 0
       ∧ ∀ c, count CR (universal_newlines (String c s)) = 0);
    [by intros [? _]|].
  induction s as [|a s [IH1 IH2]].
  - split; [done|]. intros c. simpl. case_decide; simpl; [done|].
    by rewrite decide_False.
  - split; [apply IH2|]. intros c.
    change (universal_newlines (String c (String a s))) with
      (if decide (c = CR) then
         if decide (a = LF) then String LF (universal_newlines s)
         else String LF (universal_newlines (String a s))
       else String c (universal_newlines (String a s))).
    repeat case_decide; rewrite count_cons, ?IH1, ?IH2;
      by rewrite decide_False.
Qed.

Lemma keepends_app_LF s t :
  count LF s = 0 →
  keepends (s +:+ String LF t) = (s +:+ String LF "") :: keepends t.
Proof.
  induction s as [|c s IH]; intros Hs; [done|].
  rewrite !str_app_cons. simpl in *.
  case_decide; [done|]. by rewrite IH.
Qed.

Lemma keepends_raw s : Forall raw_line (keepends s).
Proof.
  induction s as [|c s IH]; [constructor|]. simpl. case_decide as Hc.
  - constructor; [|done]. exists "". auto.
  - destruct (keepends s) as [|l ls].
    + constructor; [|done]. exists (String c ""). split; [by right|].
      simpl. by rewrite decide_False.
    + apply Forall_cons in IH as [(l' & Hl & Hl') IH].
      constructor; [|done]. exists (String c l'). split.
      * destruct Hl as [-> | ->]; auto.
      * simpl. by rewrite decide_False.
Qed.

Lemma keepends_count x s : Forall (λ l, count x l ≤ count x s) (keepends s).
Proof.
  induction s as [|c s IH]; [constructor|].
  change (keepends (String c s)) with
    (if decide (c = LF) then String LF "" :: keepends s
     else match keepends s with
          | [] => [String c ""]
          | l :: ls => String c l :: ls
          end).
  destruct (decide (c = LF)) as [->|Hc].
  - constructor.
    + rewrite !count_cons. simpl. lia.
    + eapply Forall_impl; [exact IH|]. intros l Hl. simpl in Hl.
      rewrite count_cons. lia.
  - destruct (keepends s) as [|l ls].
    + constructor; [|done]. rewrite !count_cons. simpl. lia.
    + apply Forall_cons in IH as [Hl IH]. constructor.
      * rewrite !count_cons. lia.
      * eapply Forall_impl; [exact IH|]. intros l' Hl'. simpl in Hl'.
        rewrite count_cons. lia.
Qed.

Lemma readlines_clean text : Forall clean (strip <$> readlines text).
Proof.
  apply Forall_fmap. unfold readlines.
  pose proof (keepends_raw (universal_newlines text)) as Hraw.
  pose proof (keepends_count CR (universal_newlines text)) as Hcr.
  rewrite universal_newlines_CR in Hcr.
  eapply Forall_impl; [apply Forall_and; split; [exact Hraw | exact Hcr]|].
  intros l [(s' & Hl & Hs') Hl']. simpl in *.
  split; [apply strip_strip|]. split.
  - assert (strip l = strip s') as ->.
    { destruct Hl as [-> | ->]; [|done]. by apply strip_app_space. }
    pose proof (strip_count LF s'). lia.
  - pose proof (strip_count CR l). lia.
Qed.

End StringFacts.

(** ** Parsing one line *)

Section Parse.
Implicit Types (line code name : string).

Lemma parse_line_ok line :
  count SEMI line = 1 →
  parse_line line = Ok (before SEMI line, after SEMI line).
Proof.
  intros Hline.
  destruct (before_after SEMI line) as (Heq & Hb & Ha); [lia|].
  unfold parse_line. rewrite Heq at 1.
  rewrite split_app_sep by done. by rewrite split_no_sep by lia.
Qed.

Lemma parse_line_raise line :
  count SEMI line ≠ 1 → parse_line line = Raise ValueError.
Proof.
  intros Hline. unfold parse_line.
  pose proof (split_length SEMI line) as Hlen.
  destruct (split SEMI line) as [|? [|? [|? ?]]]; simpl in *; done || lia.
Qed.

Lemma parse_line_Ok_count line code name :
  parse_line line = Ok (code, name) → count SEMI line = 1.
Proof.
  intros Hp. destruct (decide (count SEMI line = 1)) as [|Hne]; [done|].
  by rewrite parse_line_raise in Hp.
Qed.

Lemma parse_line_inv line code name :
  parse_line line = Ok (code, name) →
  line = code +:+ String SEMI name
  ∧ count SEMI code = 0 ∧ count SEMI name = 0.
Proof.
  intros Hp. pose proof (parse_line_Ok_count _ _ _ Hp) as Hline.
  rewrite parse_line_ok in Hp by done.
  destruct (before_after SEMI line) as (Heq & Hb & Ha); [lia|].
  simplify_eq. split; [done|]. split; [done | lia].
Qed.

Lemma parse_line_join code name :
  count SEMI code = 0 → count SEMI name = 0 →
  parse_line (code +:+ String SEMI name) = Ok (code, name).
Proof.
  intros Hc Hn. unfold parse_line.
  rewrite split_app_sep by done. by rewrite split_no_sep.
Qed.

(** The exception of a line that does not parse is [ValueError]. *)
Lemma parse_line_exn line e : parse_line line = Raise e → e = ValueError.
Proof.
  unfold parse_line, unpack2.
  destruct (split SEMI line) as [|? [|? [|? ?]]]; congruence.
Qed.
End Parse.

(** ** The sort *)

Section SortedFacts.
Context {A : Type} (key : A → nat) (reverse : bool).
Implicit Types (x y z : A) (v w : list A) (n : nat).

Local Abbreviation ord := (λ x y, in_order key reverse x y = true).
Local Abbreviation insert_sorted := (insert_sorted key reverse).
Local Abbreviation sorted := (sorted key reverse).

Lemma in_order_total x y :
  in_order key reverse x y = false →
  in_order key reverse y x = true ∧ key x ≠ key y.
Proof.
  unfold in_order. destruct reverse;
    rewrite Nat.leb_gt, Nat.leb_le; lia.
Qed.

Lemma in_order_trans x y z :
  in_order key reverse x y = true → in_order key reverse y z = true →
  in_order key reverse x z = true.
Proof.
  unfold in_order. destruct reverse; rewrite !Nat.leb_le; lia.
Qed.

Lemma in_order_same_key x y :
  key x = key y → in_order key reverse x y = true.
Proof.
  unfold in_order. destruct reverse; rewrite Nat.leb_le; lia.
Qed.

Lemma insert_sorted_perm x v : insert_sorted x v ≡ₚ x :: v.
Proof.
  induction v as [|y v IH]; simpl; [done|].
  destruct (in_order key reverse x y); [done|].
  by rewrite IH, Permutation_swap.
Qed.

Lemma sorted_perm v : sorted v ≡ₚ v.
Proof.
  induction v as [|x v IH]; simpl; [done|].
  by rewrite insert_sorted_perm, IH.
Qed.

Lemma insert_sorted_sorted x v :
  StronglySorted ord v → StronglySorted ord (insert_sorted x v).
Proof.
  induction 1 as [|y v Hv IH Hy]; simpl.
  - by repeat constructor.
  - destruct (in_order key reverse x y) eqn:Hxy.
    + constructor; [by constructor|]. constructor; [done|].
      eapply Forall_impl; [exact Hy|]. intros z Hz.
      by eapply in_order_trans.
    + constructor; [done|]. rewrite insert_sorted_perm.
      constructor; [|done]. by apply in_order_total.
Qed.

Lemma sorted_sorted v : StronglySorted ord (sorted v).
Proof.
  induction v as [|x v IH]; simpl; [constructor|].
  by apply insert_sorted_sorted.
Qed.

(** Stability: the elements of any one key come out in the order in
    which they went in. *)
Lemma insert_sorted_stable x v n :
  filter (λ y, key y = n) (insert_sorted x v)
  = filter (λ y, key y = n) (x :: v).
Proof.
  induction v as [|y v IH]; simpl; [done|].
  destruct (in_order key reverse x y) eqn:Hxy; [done|].
  apply in_order_total in Hxy as [_ Hne].
  rewrite (filter_cons _ y (insert_sorted x v)), IH.
  rewrite !(filter_cons _ x), (filter_cons _ y v).
  repeat case_decide; done || congruence.
Qed.

Lemma sorted_stable v n :
  filter (λ y, key y = n) (sorted v) = filter (λ y, key y = n) v.
Proof.
  induction v as [|x v IH]; simpl; [done|].
  by rewrite insert_sorted_stable, !filter_cons, IH.
Qed.

(** Sorting a sorted list changes nothing. *)
Lemma sorted_id v : StronglySorted ord v → sorted v = v.
Proof.
  induction 1 as [|x v Hv IH Hx]; simpl; [done|].
  rewrite IH. destruct Hx as [|y v Hxy _]; simpl; [done|].
  by rewrite Hxy.
Qed.

Lemma sorted_idemp v : sorted (sorted v) = sorted v.
Proof. apply sorted_id, sorted_sorted. Qed.

(** A sorted list is determined by its elements of each key, so a
    stable sort can return one list only. *)
Lemma sorted_by_keys_eq v w :
  StronglySorted ord v → StronglySorted ord w →
  (∀ n, filter (λ y, key y = n) v = filter (λ y, key y = n) w) →
  v = w.
Proof.
  intros Hv. revert w.
  induction Hv as [|x v Hv IH Hx]; intros w Hw Heq.
  - destruct w as [|y w]; [done|]. specialize (Heq (key y)).
    by rewrite filter_nil, filter_cons_True in Heq.
  - destruct Hw as [|y w Hw Hy].
    { specialize (Heq (key x)).
      by rewrite filter_nil, filter_cons_True in Heq. }
    assert (key x = key y) as Hk.
    { pose proof (Heq (key x)) as Hx'. pose proof (Heq (key y)) as Hy'.
      rewrite (filter_cons_True _ x) in Hx' by done.
      rewrite (filter_cons_True _ y) in Hy' by done.
      destruct (decide (key x = key y)) as [|Hne]; [done|].
      rewrite filter_cons_False in Hx' by done.
      rewrite filter_cons_False in Hy' by done.
      assert (x ∈ w) as Hxw.
      { eapply (list_elem_of_filter (λ z, key z = key x)).
        rewrite <-Hx'. left. }
      assert (y ∈ v) as Hyv.
      { eapply (list_elem_of_filter (λ z, key z = key y)).
        rewrite Hy'. left. }
      rewrite Forall_forall in Hx, Hy.
      specialize (Hx _ Hyv). specialize (Hy _ Hxw). simpl in *.
      unfold in_order in *. destruct reverse;
        rewrite Nat.leb_le in Hx, Hy; lia. }
    pose proof (Heq (key x)) as Hhd.
    rewrite (filter_cons_True _ x), (filter_cons_True _ y) in Hhd by done.
    injection Hhd as -> Htl. f_equal. apply IH; [done|]. intros n.
    specialize (Heq n). rewrite !(filter_cons _ y) in Heq.
    case_decide; congruence.
Qed.

Theorem sorted_unique v w :
  StronglySorted ord w →
  (∀ n, filter (λ y, key y = n) w = filter (λ y, key y = n) v) →
  w = sorted v.
Proof.
  intros Hw Heq. apply sorted_by_keys_eq; [done | apply sorted_sorted|].
  intros n. by rewrite sorted_stable.
Qed.
End SortedFacts.

(** [sorted(v, key=len, reverse=True)] puts the longest names first. *)
Lemma sorted_len_desc (v : list string) :
  StronglySorted (λ a b, len b ≤ len a) (sorted len true v).
Proof.
  pose proof (sorted_sorted len true v) as Hs.
  induction Hs as [|x w Hw IH Hx]; constructor; [done|].
  eapply Forall_impl; [exact Hx|]. intros y. simpl.
  unfold in_order. by rewrite Nat.leb_le.
Qed.

(** ** Grouping *)

Section Grouping.
Implicit Types (k c : string) (d : dict) (ps : list (string * string)).
Implicit Types (l K : list string).

Lemma setdefault_getitem_append k c d :
  getitem_append k c (setdefault k d) = Ok (add k c d).
Proof.
  induction d as [|[k' v] d IH]; simpl.
  - by rewrite decide_True.
  - case_decide; simpl.
    + by rewrite decide_True.
    + rewrite decide_False by done. by rewrite IH.
Qed.

Lemma group_line_add line d :
  group_line line d = (p ← parse_line line; Ok (add p.1 p.2 d)).
Proof.
  unfold group_line. destruct (parse_line line) as [[k c]|e]; simpl; [|done].
  apply setdefault_getitem_append.
Qed.

Lemma group_foldl lines d :
  group lines d =
    (ps ← parse_all lines; Ok (foldl (λ d p, add p.1 p.2 d) d ps)).
Proof.
  revert d. induction lines as [|line lines IH]; intros d; simpl; [done|].
  rewrite group_line_add.
  destruct (parse_line line) as [[k c]|e]; simpl; [|done].
  rewrite IH. by destruct (parse_all lines).
Qed.

(** *** Order of first occurrence *)

Lemma elem_of_first_occ x l : x ∈ first_occ l ↔ x ∈ l.
Proof.
  induction l as [|y l IH]; simpl; [done|].
  rewrite !elem_of_cons, list_elem_of_filter, IH.
  destruct (decide (x = y)); tauto.
Qed.

Lemma NoDup_first_occ l : NoDup (first_occ l).
Proof.
  induction l as [|y l IH]; simpl; [constructor|].
  constructor; [|by apply NoDup_filter].
  rewrite list_elem_of_filter. tauto.
Qed.

Lemma first_occ_snoc l x :
  first_occ (l ++ [x]) = first_occ l ++ (if decide (x ∈ l) then [] else [x]).
Proof.
  induction l as [|y l IH].
  - destruct (decide (x ∈ [])) as [Hx|_]; [|done].
    by apply not_elem_of_nil in Hx.
  - simpl. rewrite IH, filter_app. f_equal. f_equal.
    destruct (decide (x ∈ l)) as [Hx|Hx].
    + rewrite decide_True; [done|]. by right.
    + destruct (decide (x = y)) as [->|Hne].
      * rewrite decide_True by left. by rewrite filter_cons_False by auto.
      * rewrite decide_False.
        -- by rewrite filter_cons_True.
        -- rewrite elem_of_cons. tauto.
Qed.

Lemma first_occ_filter (P : string → Prop) `{∀ x, Decision (P x)} l :
  first_occ (filter P l) = filter P (first_occ l).
Proof.
  induction l as [|y l IH]; simpl; [done|].
  rewrite (filter_cons _ y l). destruct (decide (P y)) as [Hy|Hy]; simpl.
  - rewrite filter_cons_True by done. rewrite IH.
    f_equal. rewrite !list_filter_filter. apply list_filter_iff.
    intros x. tauto.
  - rewrite filter_cons_False by done. rewrite IH.
    rewrite list_filter_filter. apply list_filter_iff.
    intros x. split; [|by intros [? ?]]. intros Hx. split; [done|].
    by intros ->.
Qed.

(** *** The dictionary after the loop *)

Lemma cities_of_snoc k' ps k c :
  cities_of k' (ps ++ [(k, c)])
  = cities_of k' ps ++ (if decide (k' = k) then [c] else []).
Proof.
  unfold cities_of. rewrite filter_app, fmap_app. f_equal.
  rewrite filter_cons. simpl. by repeat case_decide.
Qed.

Lemma cities_of_nil k ps : k ∉ ps.*1 → cities_of k ps = [].
Proof.
  intros Hk. unfold cities_of.
  induction ps as [|[k' c] ps IH]; [done|].
  rewrite fmap_cons, not_elem_of_cons in Hk. destruct Hk as [Hne Hk].
  rewrite filter_cons_False by (simpl; intros ?; by subst). by apply IH.
Qed.

Lemma add_fmap (f : string → list string) K k c :
  NoDup K →
  add k c ((λ k', (k', f k')) <$> K)
  = ((λ k', (k', f k' ++ (if decide (k' = k) then [c] else []))) <$> K)
    ++ (if decide (k ∈ K) then [] else [(k, [c])]).
Proof.
  induction K as [|k0 K IH]; intros HK.
  - destruct (decide (k ∈ [])) as [Hk|_]; [|done].
    by apply not_elem_of_nil in Hk.
  - apply NoDup_cons in HK as [Hk0 HK]. rewrite !fmap_cons. simpl.
    destruct (decide (k0 = k)) as [->|Hne].
    + rewrite decide_True by left. rewrite app_nil_r. f_equal.
      apply Forall_fmap_ext_1, Forall_forall. intros k' Hk'.
      rewrite decide_False by congruence. by rewrite app_nil_r.
    + rewrite app_nil_r, IH by done. do 2 f_equal.
      destruct (decide (k ∈ K)) as [Hk|Hk].
      * rewrite decide_True; [done|]. by right.
      * rewrite decide_False; [done|]. rewrite elem_of_cons.
        intros [?|?]; done.
Qed.

Lemma add_table k c ps : add k c (table ps) = table (ps ++ [(k, c)]).
Proof.
  unfold table. rewrite add_fmap by apply NoDup_first_occ.
  rewrite (fmap_app fst ps). change ([(k, c)].*1) with [k].
  rewrite first_occ_snoc, fmap_app. f_equal.
  - apply Forall_fmap_ext_1, Forall_forall. intros k' _.
    by rewrite cities_of_snoc.
  - destruct (decide (k ∈ ps.*1)) as [Hk|Hk].
    + rewrite decide_True; [done|]. by apply elem_of_first_occ.
    + rewrite decide_False by by rewrite elem_of_first_occ.
      simpl. rewrite cities_of_snoc, decide_True by done.
      by rewrite cities_of_nil.
Qed.

Lemma foldl_add_table ps : foldl (λ d p, add p.1 p.2 d) [] ps = table ps.
Proof.
  induction ps as [|[k c] ps IH] using rev_ind; [done|].
  rewrite foldl_app. simpl. by rewrite IH, add_table.
Qed.

Lemma group_table lines ps :
  parse_all lines = Ok ps → group lines [] = Ok (table ps).
Proof.
  intros Hps. rewrite group_foldl, Hps. simpl. by rewrite foldl_add_table.
Qed.

Lemma group_raise lines e d :
  parse_all lines = Raise e → group lines d = Raise e.
Proof. intros Hps. by rewrite group_foldl, Hps. Qed.
End Grouping.

(** ** Writing *)

Section Writing.
Implicit Types (k c w : string) (d : dict) (ps qs : list (string * string)).
Implicit Types (K : list string).

Lemma render_all_app ps qs :
  render_all (ps ++ qs) = render_all ps +:+ render_all qs.
Proof.
  induction ps as [|p ps IH]; simpl; [done|].
  by rewrite IH, str_app_assoc.
Qed.

Lemma write_cities_render k v w :
  write_cities k v w = w +:+ render_all ((k,.) <$> v).
Proof.
  revert w. induction v as [|c v IH]; intros w; simpl.
  - by rewrite str_app_nil_r.
  - rewrite IH. unfold write, render. simpl. by rewrite !str_app_assoc.
Qed.

Lemma write_states_render d w :
  write_states d w = w +:+ render_all (emitted d).
Proof.
  revert w. induction d as [|[k v] d IH]; intros w; simpl.
  - by rewrite str_app_nil_r.
  - rewrite IH, write_cities_render. unfold emitted.
    by rewrite render_all_app, str_app_assoc.
Qed.

(** *** The records written, block by block *)

Lemma output_blocks ps :
  output ps
  = first_occ ps.*1 ≫= λ k, (k,.) <$> sorted len true (cities_of k ps).
Proof. unfold output, emitted, table. by rewrite list_fmap_bind. Qed.

Lemma filter_all {A} (P : A → Prop) `{∀ x, Decision (P x)} (l : list A) :
  Forall P l → filter P l = l.
Proof.
  induction 1 as [|x l Hx Hl IH]; [done|].
  by rewrite filter_cons_True, IH.
Qed.

Lemma filter_none {A} (P : A → Prop) `{∀ x, Decision (P x)} (l : list A) :
  Forall (λ x, ¬P x) l → filter P l = [].
Proof.
  induction 1 as [|x l Hx Hl IH]; [done|].
  by rewrite filter_cons_False.
Qed.

Lemma cities_of_app k ps qs :
  cities_of k (ps ++ qs) = cities_of k ps ++ cities_of k qs.
Proof. unfold cities_of. by rewrite filter_app, fmap_app. Qed.

Lemma cities_of_block k k' (v : list string) :
  cities_of k ((k',.) <$> v) = if decide (k' = k) then v else [].
Proof.
  unfold cities_of. case_decide as Hk.
  - rewrite filter_all.
    + rewrite <-list_fmap_compose. apply list_fmap_id.
    + by apply Forall_fmap, Forall_true.
  - rewrite filter_none; [done|]. by apply Forall_fmap, Forall_true.
Qed.

Lemma cities_of_blocks (f : string → list string) K k :
  NoDup K →
  cities_of k (K ≫= λ k', (k',.) <$> f k')
  = if decide (k ∈ K) then f k else [].
Proof.
  induction K as [|k0 K IH]; intros HK.
  - destruct (decide (k ∈ [])) as [Hk|_]; [|done].
    by apply not_elem_of_nil in Hk.
  - apply NoDup_cons in HK as [Hk0 HK].
    rewrite bind_cons, cities_of_app, cities_of_block, IH by done.
    destruct (decide (k0 = k)) as [->|Hne].
    + rewrite (decide_False (P:=k ∈ K)) by done.
      rewrite decide_True by left. by rewrite app_nil_r.
    + simpl. destruct (decide (k ∈ K)) as [Hk|Hk].
      * rewrite decide_True; [done|]. by right.
      * rewrite decide_False; [done|]. rewrite elem_of_cons.
        intros [?|?]; done.
Qed.

(** The block of a code holds the names of that code, sorted. *)
Lemma cities_of_output k ps :
  cities_of k (output ps) = sorted len true (cities_of k ps).
Proof.
  rewrite output_blocks.
  rewrite (cities_of_blocks (λ k, sorted len true (cities_of k ps)))
    by apply NoDup_first_occ.
  case_decide as Hk; [done|]. rewrite elem_of_first_occ in Hk.
  by rewrite cities_of_nil.
Qed.

Lemma codes_of_block k (v : list string) :
  ((k,.) <$> v).*1 = replicate (length v) k.
Proof. induction v as [|c v IH]; csimpl; [done|]. by rewrite IH. Qed.

Lemma output_codes ps :
  (output ps).*1
  = first_occ ps.*1 ≫= λ k, replicate (length (cities_of k ps)) k.
Proof.
  rewrite output_blocks. induction (first_occ ps.*1) as [|k K IH]; [done|].
  rewrite !bind_cons, fmap_app, IH. f_equal.
  by rewrite codes_of_block, (Permutation_length (sorted_perm _ _ _)).
Qed.

Lemma cities_of_nonempty k ps : k ∈ ps.*1 → 0 < length (cities_of k ps).
Proof.
  intros ([k' c] & -> & Hp)%list_elem_of_fmap. simpl.
  assert (c ∈ cities_of k' ps) as Hc.
  { unfold cities_of. apply list_elem_of_fmap. exists (k', c).
    split; [done|]. by apply list_elem_of_filter. }
  destruct (cities_of k' ps); [|simpl; lia].
  by apply not_elem_of_nil in Hc.
Qed.

Lemma first_occ_blocks (n : string → nat) K :
  NoDup K → Forall (λ k, 0 < n k) K →
  first_occ (K ≫= λ k, replicate (n k) k) = K.
Proof.
  induction K as [|k K IH]; intros HK Hn; [done|].
  apply NoDup_cons in HK as [Hk HK]. apply Forall_cons in Hn as [Hnk Hn].
  rewrite bind_cons. destruct (n k) as [|m]; [lia|]. simpl. f_equal.
  rewrite <-first_occ_filter, filter_app.
  rewrite filter_none, filter_all; [by apply IH| |].
  - apply Forall_forall. intros x (k' & Hx & Hk')%list_elem_of_bind.
    apply elem_of_replicate_inv in Hx. congruence.
  - apply Forall_forall. intros x Hx%elem_of_replicate_inv. auto.
Qed.

(** The codes come out in the order of their first occurrence. *)
Lemma first_occ_output ps : first_occ (output ps).*1 = first_occ ps.*1.
Proof.
  rewrite output_codes. apply first_occ_blocks; [apply NoDup_first_occ|].
  apply Forall_forall. intros k Hk. rewrite elem_of_first_occ in Hk.
  by apply (cities_of_nonempty k ps).
Qed.

Lemma contiguous_blocks (n : string → nat) K :
  NoDup K → contiguous (K ≫= λ k, replicate (n k) k).
Proof.
  induction K as [|k K IH]; intros HK.
  - intros i j m x y _ _ Hi. by destruct i.
  - apply NoDup_cons in HK as [Hk HK]. specialize (IH HK).
    rewrite bind_cons. intros i j m x y Hij Hjm Hi Hm Hj.
    assert (k ∉ K ≫= λ k, replicate (n k) k) as Hrest.
    { intros (k' & Hx & Hk')%list_elem_of_bind.
      apply elem_of_replicate_inv in Hx. congruence. }
    rewrite lookup_app_Some, lookup_replicate, length_replicate in Hi, Hm, Hj.
    destruct Hi as [[-> Hi]|[Hi Hi']].
    + destruct Hm as [[_ Hm]|[_ Hm]].
      * destruct Hj as [[-> _]|[Hj _]]; [done | lia].
      * by apply list_elem_of_lookup_2 in Hm.
    + destruct Hm as [[_ Hm]|[Hm Hm']]; [lia|].
      destruct Hj as [[_ Hj]|[Hj Hj']]; [lia|].
      eapply (IH (i - n k) (j - n k) (m - n k)); [lia | lia | done..].
Qed.

(** The lines of one code stand together. *)
Lemma contiguous_output ps : contiguous (output ps).*1.
Proof.
  rewrite output_codes. apply contiguous_blocks, NoDup_first_occ.
Qed.

(** *** Nothing lost, nothing added *)

Lemma emitted_add k c d : emitted (add k c d) ≡ₚ emitted d ++ [(k, c)].
Proof.
  unfold emitted. induction d as [|[k' v] d IH]; simpl; [done|].
  case_decide as Hk; simpl.
  - subst k'. rewrite !sorted_perm, fmap_app. simpl.
    rewrite <-!(assoc_L (++)). f_equiv. apply Permutation_app_comm.
  - by rewrite IH, (assoc_L (++)).
Qed.

Lemma output_perm ps : output ps ≡ₚ ps.
Proof.
  unfold output. rewrite <-foldl_add_table.
  induction ps as [|[k c] ps IH] using rev_ind; [done|].
  rewrite foldl_app. simpl. by rewrite emitted_add, IH.
Qed.

(** *** Running on the records just written *)

Lemma output_idemp ps : output (output ps) = output ps.
Proof.
  rewrite (output_blocks (output ps)), first_occ_output, output_blocks.
  apply list_bind_ext; [|done]. intros k.
  by rewrite <-output_blocks, cities_of_output, sorted_idemp.
Qed.
End Writing.

(** ** Reading records *)

Section Records.
Implicit Types (line text : string) (lines : list string).
Implicit Types (p : string * string) (ps : list (string * string)).

Lemma parse_all_cons line lines :
  parse_all (line :: lines)
  = (p ← parse_line line; ps ← parse_all lines; Ok (p :: ps)).
Proof. reflexivity. Qed.

Lemma parse_all_ok lines :
  Forall (λ line, count SEMI line = 1) lines →
  parse_all lines = Ok ((λ line, (before SEMI line, after SEMI line)) <$> lines).
Proof.
  induction 1 as [|line lines Hline _ IH]; simpl; [done|].
  by rewrite parse_line_ok, IH.
Qed.

Lemma parse_all_raise lines :
  Exists (λ line, count SEMI line ≠ 1) lines →
  parse_all lines = Raise ValueError.
Proof.
  induction lines as [|line lines IH]; intros Hex; [by inversion Hex|].
  simpl. destruct (decide (count SEMI line = 1)) as [Hline|Hline].
  - rewrite parse_line_ok by done. simpl. rewrite IH; [done|].
    by inversion Hex.
  - by rewrite parse_line_raise.
Qed.

Lemma parse_all_Ok_inv lines ps :
  parse_all lines = Ok ps →
  Forall (λ line, count SEMI line = 1) lines
  ∧ Forall2 (λ line p, line = p.1 +:+ String SEMI p.2
               ∧ count SEMI p.1 = 0 ∧ count SEMI p.2 = 0) lines ps.
Proof.
  revert ps. induction lines as [|line lines IH]; intros ps; simpl.
  - intros [= <-]. by split; constructor.
  - destruct (parse_line line) as [[k c]|e] eqn:Hline; simpl; [|done].
    destruct (parse_all lines) as [qs|e]; simpl; [|done].
    intros [= <-]. destruct (IH qs eq_refl) as [Hlines Hqs].
    split; constructor; try done.
    + by eapply parse_line_Ok_count.
    + by apply parse_line_inv.
Qed.

Lemma parse_all_exn lines e : parse_all lines = Raise e → e = ValueError.
Proof.
  induction lines as [|line lines IH]; simpl; [done|].
  destruct (parse_line line) as [p|e'] eqn:Hline; simpl.
  - destruct (parse_all lines); simpl; [done|]. intros [= ->]. by apply IH.
  - intros [= ->]. by eapply parse_line_exn.
Qed.

Lemma render_line p :
  render p = (p.1 +:+ String SEMI p.2) +:+ String LF "".
Proof. unfold render. by rewrite str_app_assoc. Qed.

Lemma render_all_cons p ps :
  render_all (p :: ps) = render p +:+ render_all ps.
Proof. reflexivity. Qed.

Lemma render_all_CR ps : Forall good ps → count CR (render_all ps) = 0.
Proof.
  induction 1 as [|p ps ((_ & _ & Hp) & _) _ IH]; [done|].
  rewrite render_all_cons, render_line.
  by rewrite (count_app _ _ (render_all ps)), (count_app _ _ (String LF "")),
    Hp, IH.
Qed.

Lemma content_render_all ps :
  Forall good ps →
  content (render_all ps) = (λ p, p.1 +:+ String SEMI p.2) <$> ps.
Proof.
  intros Hps. unfold content, readlines.
  rewrite universal_newlines_id by by apply render_all_CR.
  induction Hps as [|p ps ((Hstrip & Hlf & _) & _) _ IH]; [done|].
  rewrite render_all_cons, render_line, str_app_assoc, str_app_cons.
  change ("" +:+ render_all ps) with (render_all ps).
  rewrite keepends_app_LF by done. rewrite !fmap_cons, IH. f_equal.
  by rewrite strip_app_space.
Qed.

(** The text of good records reads back as these records. *)
Lemma records_render_all ps : Forall good ps → records (render_all ps) = Ok ps.
Proof.
  intros Hps. unfold records. rewrite content_render_all by done.
  induction Hps as [|[k c] ps (_ & Hk & Hc) _ IH]; [done|].
  by rewrite fmap_cons, parse_all_cons, parse_line_join, IH.
Qed.

(** The records of any text are good. *)
Lemma records_good text ps : records text = Ok ps → Forall good ps.
Proof.
  unfold records, content. intros [_ Hps]%parse_all_Ok_inv.
  pose proof (readlines_clean text) as Hclean.
  induction Hps as [|line p lines ps (-> & Hk & Hc) _ IH]; [constructor|].
  apply Forall_cons in Hclean as [Hline Hclean]. constructor; [|by apply IH].
  by split.
Qed.

Lemma records_well_formed text :
  well_formed text →
  records text
  = Ok ((λ line, (before SEMI line, after SEMI line)) <$> content text).
Proof. apply parse_all_ok. Qed.

Lemma records_Ok_well_formed text ps : records text = Ok ps → well_formed text.
Proof. by intros [? _]%parse_all_Ok_inv. Qed.
End Records.

(** ** The run as a whole *)

Section Run.
Implicit Types (fs : files) (text : string) (ps : list (string * string)).

Lemma load_content fs text :
  fs !! cities_txt = Some text → load fs = Ok (content text).
Proof. intros Hfs. unfold load. by rewrite Hfs. Qed.

Lemma formatter_missing fs :
  fs !! cities_txt = None → formatter fs = (Raise FileNotFoundError, fs).
Proof. intros Hfs. unfold formatter, load. by rewrite Hfs. Qed.

Lemma formatter_raise fs text e :
  fs !! cities_txt = Some text → records text = Raise e →
  formatter fs = (Raise e, fs).
Proof.
  intros Hfs Hrec. unfold formatter. rewrite (load_content _ _ Hfs).
  by rewrite (group_raise _ _ _ Hrec).
Qed.

Lemma formatter_ok fs text ps :
  fs !! cities_txt = Some text → records text = Ok ps →
  formatter fs = (Ok (), <[tmp_txt := render_all (output ps)]> fs).
Proof.
  intros Hfs Hrec. unfold formatter. rewrite (load_content _ _ Hfs).
  rewrite (group_table _ _ Hrec). by rewrite write_states_render.
Qed.

Lemma formatter_Ok_inv fs fs' :
  formatter fs = (Ok (), fs') →
  ∃ text ps,
    fs !! cities_txt = Some text ∧ records text = Ok ps
    ∧ fs' = <[tmp_txt := render_all (output ps)]> fs.
Proof.
  intros Hrun. destruct (fs !! cities_txt) as [text|] eqn:Hfs.
  - destruct (records text) as [ps|e] eqn:Hrec.
    + rewrite (formatter_ok _ _ _ Hfs Hrec) in Hrun.
      exists text, ps. by simplify_eq.
    + by rewrite (formatter_raise _ _ _ Hfs Hrec) in Hrun.
  - by rewrite (formatter_missing _ Hfs) in Hrun.
Qed.

(** A run that raises leaves every file as it was. *)
Lemma formatter_Raise_unchanged fs e :
  (formatter fs).1 = Raise e → (formatter fs).2 = fs.
Proof.
  unfold formatter. destruct (load fs) as [lines|e']; [|done].
  by destruct (group lines []).
Qed.

Lemma output_good ps : Forall good ps → Forall good (output ps).
Proof. intros Hps. by rewrite output_perm. Qed.
End Run.

(** ** Further facts used by the main statements *)

Section MoreFacts.
Implicit Types (s t line text k c : string) (d : dict).
Implicit Types (fs : files) (ps : list (string * string)).

Lemma rstrip_len s : len (rstrip s) ≤ len s.
Proof.
  destruct (rstrip_spec s) as (trail & Heq & _).
  rewrite Heq at 2. rewrite len_app. lia.
Qed.

Lemma strip_no_space_ends s : no_space_ends (strip s).
Proof.
  split.
  - intros c t Hs. pose proof (strip_lstrip s) as Hl.
    rewrite Hs in Hl. simpl in Hl.
    destruct (isspace c); [|done].
    pose proof (lstrip_len t) as Hlen. rewrite Hl in Hlen.
    unfold len in Hlen. simpl in Hlen. lia.
  - intros t c Hs. pose proof (strip_rstrip s) as Hr.
    rewrite Hs in Hr. destruct (isspace c) eqn:Hc; [|done].
    rewrite rstrip_app_space in Hr by (simpl; by rewrite Hc).
    pose proof (rstrip_len t) as Hlen.
    rewrite Hr, len_app in Hlen. unfold len in Hlen. simpl in Hlen. lia.
Qed.

Lemma get_add k c d : get k (add k c d) = get k d ++ [c].
Proof.
  induction d as [|[k' v] d IH]; simpl.
  - by rewrite decide_True.
  - case_decide; simpl; [by rewrite decide_True|].
    by rewrite decide_False.
Qed.

Lemma get_add_ne k k' c d : k' ≠ k → get k' (add k c d) = get k' d.
Proof.
  intros Hne. induction d as [|[k0 v] d IH]; simpl.
  - by rewrite decide_False.
  - destruct (decide (k0 = k)) as [->|Hk0]; simpl; [|by rewrite IH].
    by rewrite !decide_False.
Qed.

Lemma readlines_render_all ps :
  Forall good ps → readlines (render_all ps) = render <$> ps.
Proof.
  intros Hps. unfold readlines.
  rewrite universal_newlines_id by by apply render_all_CR.
  induction Hps as [|p ps ((_ & Hlf & _) & _) _ IH]; [done|].
  rewrite render_all_cons, fmap_cons, <-IH.
  rewrite (render_line p) at 1. rewrite str_app_assoc, str_app_cons.
  change ("" +:+ render_all ps) with (render_all ps).
  by rewrite keepends_app_LF, render_line.
Qed.

(** A run ends well exactly on the inputs with one separator on each
    line. *)
Lemma formatter_Ok_iff fs :
  (∃ fs', formatter fs = (Ok (), fs'))
  ↔ ∃ text, fs !! cities_txt = Some text ∧ well_formed text.
Proof.
  split.
  - intros (fs' & (text & ps & Hfs & Hrec & _)%formatter_Ok_inv).
    exists text. split; [done|]. by eapply records_Ok_well_formed.
  - intros (text & Hfs & Hwf). eexists.
    eapply formatter_ok; [done|]. by apply records_well_formed.
Qed.

(** What a run on a well-formed input does, in one statement. *)
Lemma formatter_well_formed fs text :
  fs !! cities_txt = Some text → well_formed text →
  ∃ ps,
    records text = Ok ps
    ∧ formatter fs = (Ok (), <[tmp_txt := render_all (output ps)]> fs)
    ∧ records (render_all (output ps)) = Ok (output ps).
Proof.
  intros Hfs Hwf. pose proof (records_well_formed _ Hwf) as Hrec.
  eexists. split; [exact Hrec|]. split; [by eapply formatter_ok|].
  apply records_render_all, output_good. by eapply records_good.
Qed.
End MoreFacts.

(** * The main statements *)

(** The example of the specification: an input that is already grouped
    and ordered comes out unchanged. *)
Example formatter_spec_example :
  let text := "AB;city_name_xxx" +:+ eol +:+ "AB;city_name_yy" +:+ eol +:+
              "AB;city_name_z" +:+ eol +:+ "CA;foo" +:+ eol in
  formatter {[ cities_txt := text ]}
  = (Ok (), {[ cities_txt := text; tmp_txt := text ]}).
Proof. by vm_compute. Qed.

(** The sample input: blocks in the order [AB], [CA]; longest names
    first; [foo] stays before [bar]. *)
Example formatter_sample :
  (formatter sample_fs).2 !! tmp_txt
  = Some ("AB;city_name_xxx" +:+ eol +:+ "AB;city_name_yy" +:+ eol +:+
          "AB;city_name_z" +:+ eol +:+ "AB;" +:+ eol +:+
          "CA;foo" +:+ eol +:+ "CA;bar" +:+ eol).
Proof. by vm_compute. Qed.

Example first_occ_example :
  first_occ ["b"; "a"; "b"; "c"; "a"] = ["b"; "a"; "c"].
Proof. reflexivity. Qed.

(** An empty input file gives an empty output file. *)
Example formatter_empty_input :
  formatter {[ cities_txt := "" ]}
  = (Ok (), {[ cities_txt := ""; tmp_txt := "" ]}).
Proof. by vm_compute. Qed.

(** ** Parsing *)

(** C1, as stated, does not hold: a line with two separators contains a
    [;], yet the parser raises instead of returning the parts around the
    first [;]. *)
Lemma parse_line_two_separators :
  0 < count SEMI "A;b;c"
  ∧ (before SEMI "A;b;c", after SEMI "A;b;c") = ("A", "b;c")
  ∧ parse_line "A;b;c" = Raise ValueError.
Proof. split; [vm_compute; lia|]. by split. Qed.

(** C1, amended: parsing a line is a total function into results.  A line
    with exactly one [;] gives the record made of the part before the
    [;] and the part after it; every other line, without [;] or with two
    or more, raises [ValueError]. *)
Theorem parse_line_total line :
  (count SEMI line = 1
   ∧ parse_line line = Ok (before SEMI line, after SEMI line))
  ∨ (count SEMI line ≠ 1 ∧ parse_line line = Raise ValueError).
Proof.
  destruct (decide (count SEMI line = 1)) as [Hline|Hline].
  - left. split; [done|]. by apply parse_line_ok.
  - right. split; [done|]. by apply parse_line_raise.
Qed.

(** ** Records kept *)

(** C2, as stated, does not hold: every line of this input contains a
    separator, yet the run raises [ValueError] and writes nothing, so the
    record of the line is lost. *)
Lemma formatter_two_separators :
  let fs : files := {[ cities_txt := "A;b;c" ]} in
  Forall (λ line, 0 < count SEMI line) (content "A;b;c")
  ∧ formatter fs = (Raise ValueError, fs)
  ∧ fs !! tmp_txt = None.
Proof.
  split; [|by split].
  change (content "A;b;c") with ["A;b;c"].
  constructor; [vm_compute; lia | constructor].
Qed.

(** C2, amended: for every input whose lines each contain exactly one
    separator, the run ends well and the records on the lines of the
    output are a permutation of the records of the input: none is
    dropped, none is duplicated. *)
Theorem formatter_keeps_records fs text :
  fs !! cities_txt = Some text → well_formed text →
  ∃ fs' out ps ps',
    formatter fs = (Ok (), fs') ∧ fs' !! tmp_txt = Some out
    ∧ records text = Ok ps
    ∧ out = render_all ps' ∧ records out = Ok ps'
    ∧ ps' ≡ₚ ps.
Proof.
  intros Hfs Hwf.
  destruct (formatter_well_formed _ _ Hfs Hwf) as (ps & Hrec & Hrun & Hout).
  eexists _, _, ps, (output ps). split; [exact Hrun|].
  split; [apply lookup_insert_eq|]. do 3 (split; [done|]).
  apply output_perm.
Qed.

Lemma formatter_keeps_records_witness :
  sample_fs !! cities_txt = Some sample_text ∧ well_formed sample_text
  ∧ ∃ fs' out ps ps',
      formatter sample_fs = (Ok (), fs') ∧ fs' !! tmp_txt = Some out
      ∧ records sample_text = Ok ps
      ∧ out = render_all ps' ∧ records out = Ok ps'
      ∧ ps' ≡ₚ ps.
Proof.
  assert (well_formed sample_text) as Hwf by (vm_compute; repeat constructor).
  split; [reflexivity|]. split; [exact Hwf|].
  apply (formatter_keeps_records sample_fs sample_text); [reflexivity|exact Hwf].
Defined.

(** ** Order inside a block *)

(** C3: for every well-formed input (one separator on each line, which
    are the inputs on which anything is written) and every code, the names
    on the output lines of that code are in non-increasing order of
    length. *)
Theorem formatter_blocks_sorted fs text :
  fs !! cities_txt = Some text → well_formed text →
  ∃ fs' out ps',
    formatter fs = (Ok (), fs') ∧ fs' !! tmp_txt = Some out
    ∧ out = render_all ps' ∧ records out = Ok ps'
    ∧ ∀ k, StronglySorted (λ a b, len b ≤ len a) (cities_of k ps').
Proof.
  intros Hfs Hwf.
  destruct (formatter_well_formed _ _ Hfs Hwf) as (ps & Hrec & Hrun & Hout).
  eexists _, _, (output ps). split; [exact Hrun|].
  split; [apply lookup_insert_eq|]. do 2 (split; [done|]).
  intros k. rewrite cities_of_output. apply sorted_len_desc.
Qed.

Lemma formatter_blocks_sorted_witness :
  sample_fs !! cities_txt = Some sample_text ∧ well_formed sample_text
  ∧ ∃ fs' out ps',
      formatter sample_fs = (Ok (), fs') ∧ fs' !! tmp_txt = Some out
      ∧ out = render_all ps' ∧ records out = Ok ps'
      ∧ ∀ k, StronglySorted (λ a b, len b ≤ len a) (cities_of k ps').
Proof.
  assert (well_formed sample_text) as Hwf by (vm_compute; repeat constructor).
  split; [reflexivity|]. split; [exact Hwf|].
  apply (formatter_blocks_sorted sample_fs sample_text); [reflexivity|exact Hwf].
Defined.

(** C4: the sort of each block is stable.  For every well-formed input,
    every code and every length, the names of that code and that length
    stand in the output in the order in which they stand in the input. *)
Theorem formatter_sort_stable fs text :
  fs !! cities_txt = Some text → well_formed text →
  ∃ fs' out ps ps',
    formatter fs = (Ok (), fs') ∧ fs' !! tmp_txt = Some out
    ∧ records text = Ok ps
    ∧ out = render_all ps' ∧ records out = Ok ps'
    ∧ ∀ k n,
        filter (λ c, len c = n) (cities_of k ps')
        = filter (λ c, len c = n) (cities_of k ps).
Proof.
  intros Hfs Hwf.
  destruct (formatter_well_formed _ _ Hfs Hwf) as (ps & Hrec & Hrun & Hout).
  eexists _, _, ps, (output ps). split; [exact Hrun|].
  split; [apply lookup_insert_eq|]. do 3 (split; [done|]).
  intros k n. rewrite cities_of_output. apply sorted_stable.
Qed.

Lemma formatter_sort_stable_witness :
  sample_fs !! cities_txt = Some sample_text ∧ well_formed sample_text
  ∧ ∃ fs' out ps ps',
      formatter sample_fs = (Ok (), fs') ∧ fs' !! tmp_txt = Some out
      ∧ records sample_text = Ok ps
      ∧ out = render_all ps' ∧ records out = Ok ps'
      ∧ ∀ k n,
          filter (λ c, len c = n) (cities_of k ps')
          = filter (λ c, len c = n) (cities_of k ps).
Proof.
  assert (well_formed sample_text) as Hwf by (vm_compute; repeat constructor).
  split; [reflexivity|]. split; [exact Hwf|].
  apply (formatter_sort_stable sample_fs sample_text); [reflexivity|exact Hwf].
Defined.

(** ** Order of the blocks *)

(** C5: for every well-formed input the output is grouped by code.  The
    distinct codes of the output, in order, are the codes of the input in
    the order of their first occurrence, and the lines of one code are
    contiguous. *)
Theorem formatter_groups_in_insertion_order fs text :
  fs !! cities_txt = Some text → well_formed text →
  ∃ fs' out ps ps',
    formatter fs = (Ok (), fs') ∧ fs' !! tmp_txt = Some out
    ∧ records text = Ok ps
    ∧ out = render_all ps' ∧ records out = Ok ps'
    ∧ first_occ ps'.*1 = first_occ ps.*1
    ∧ contiguous ps'.*1.
Proof.
  intros Hfs Hwf.
  destruct (formatter_well_formed _ _ Hfs Hwf) as (ps & Hrec & Hrun & Hout).
  eexists _, _, ps, (output ps). split; [exact Hrun|].
  split; [apply lookup_insert_eq|]. do 3 (split; [done|]).
  split; [apply first_occ_output | apply contiguous_output].
Qed.

Lemma formatter_groups_in_insertion_order_witness :
  sample_fs !! cities_txt = Some sample_text ∧ well_formed sample_text
  ∧ ∃ fs' out ps ps',
      formatter sample_fs = (Ok (), fs') ∧ fs' !! tmp_txt = Some out
      ∧ records sample_text = Ok ps
      ∧ out = render_all ps' ∧ records out = Ok ps'
      ∧ first_occ ps'.*1 = first_occ ps.*1
      ∧ contiguous ps'.*1.
Proof.
  assert (well_formed sample_text) as Hwf by (vm_compute; repeat constructor).
  split; [reflexivity|]. split; [exact Hwf|].
  apply (formatter_groups_in_insertion_order sample_fs sample_text);
    [reflexivity|exact Hwf].
Defined.

(** ** Failing fast *)

(** C6: when some line of the input holds no separator, the run raises
    [ValueError] and leaves every file as it was: [tmp.txt] is neither
    created nor emptied nor written in part. *)
Theorem formatter_fail_fast fs text line :
  fs !! cities_txt = Some text →
  line ∈ content text → count SEMI line = 0 →
  formatter fs = (Raise ValueError, fs).
Proof.
  intros Hfs Hline Hcount. eapply formatter_raise; [done|].
  apply parse_all_raise, Exists_exists. exists line. split; [done | lia].
Qed.

Lemma formatter_fail_fast_witness :
  broken_fs !! cities_txt = Some broken_text
  ∧ "NOCODEHERE" ∈ content broken_text
  ∧ count SEMI "NOCODEHERE" = 0
  ∧ formatter broken_fs = (Raise ValueError, broken_fs)
  ∧ broken_fs !! tmp_txt = Some "old".
Proof.
  assert ("NOCODEHERE" ∈ content broken_text) as Hin
    by (vm_compute; repeat constructor).
  split; [reflexivity|]. split; [exact Hin|]. split; [reflexivity|].
  split; [|reflexivity].
  apply (formatter_fail_fast broken_fs broken_text "NOCODEHERE");
    [reflexivity | exact Hin | reflexivity].
Defined.

(** ** Loading *)

(** C7, as stated, does not hold: the line handed to the parser has lost
    its leading whitespace too, so it differs from the raw line without
    its trailing whitespace. *)
Lemma load_strips_leading_space :
  let raw := "  AB;x " in
  readlines raw = [raw]
  ∧ load {[ cities_txt := raw ]} = Ok ["AB;x"]
  ∧ rstrip raw = "  AB;x".
Proof. by vm_compute. Qed.

(** C7, amended: the loader returns one line for each line of the input,
    in order, and each is the raw line without the whitespace at both of
    its ends: the raw line is whitespace, then the line returned, then
    whitespace, and the line returned neither starts nor ends with
    whitespace. *)
Theorem load_strips_both_ends fs text :
  fs !! cities_txt = Some text →
  ∃ lines,
    load fs = Ok lines
    ∧ Forall2 (λ raw line,
        (∃ lead trail,
           raw = lead +:+ line +:+ trail
           ∧ all isspace lead ∧ all isspace trail)
        ∧ no_space_ends line) (readlines text) lines.
Proof.
  intros Hfs. exists (content text). split; [by apply load_content|].
  unfold content. apply Forall2_fmap_r, Forall_Forall2_diag, Forall_forall.
  intros raw _. split; [apply strip_spec | apply strip_no_space_ends].
Qed.

Lemma load_strips_both_ends_witness :
  sample_fs !! cities_txt = Some sample_text
  ∧ ∃ lines,
      load sample_fs = Ok lines
      ∧ Forall2 (λ raw line,
          (∃ lead trail,
             raw = lead +:+ line +:+ trail
             ∧ all isspace lead ∧ all isspace trail)
          ∧ no_space_ends line) (readlines sample_text) lines.
Proof.
  split; [reflexivity|].
  apply (load_strips_both_ends sample_fs sample_text). reflexivity.
Defined.

(** ** Running twice *)

(** C8: for every well-formed input, a run on what the first run wrote
    writes the same text again, so the order inside every block is the
    same; the names of each block are already sorted, and sorting them
    again leaves them as they are. *)
Theorem formatter_idempotent fs text :
  fs !! cities_txt = Some text → well_formed text →
  ∃ fs' out ps',
    formatter fs = (Ok (), fs') ∧ fs' !! tmp_txt = Some out
    ∧ records out = Ok ps'
    ∧ (∀ k, sorted len true (cities_of k ps') = cities_of k ps')
    ∧ ∀ fs2, fs2 !! cities_txt = Some out →
        formatter fs2 = (Ok (), <[tmp_txt := out]> fs2).
Proof.
  intros Hfs Hwf.
  destruct (formatter_well_formed _ _ Hfs Hwf) as (ps & Hrec & Hrun & Hout).
  eexists _, _, (output ps). split; [exact Hrun|].
  split; [apply lookup_insert_eq|]. split; [done|]. split.
  - intros k. by rewrite cities_of_output, sorted_idemp.
  - intros fs2 Hfs2. rewrite (formatter_ok _ _ _ Hfs2 Hout).
    by rewrite output_idemp.
Qed.

Lemma formatter_idempotent_witness :
  sample_fs !! cities_txt = Some sample_text ∧ well_formed sample_text
  ∧ ∃ fs' out ps',
      formatter sample_fs = (Ok (), fs') ∧ fs' !! tmp_txt = Some out
      ∧ records out = Ok ps'
      ∧ (∀ k, sorted len true (cities_of k ps') = cities_of k ps')
      ∧ ∀ fs2, fs2 !! cities_txt = Some out →
          formatter fs2 = (Ok (), <[tmp_txt := out]> fs2).
Proof.
  assert (well_formed sample_text) as Hwf by (vm_compute; repeat constructor).
  split; [reflexivity|]. split; [exact Hwf|].
  apply (formatter_idempotent sample_fs sample_text); [reflexivity|exact Hwf].
Defined.

(** ** Empty fields *)

(** C10: a line with one separator and an empty field before or after it
    is taken like any other.  It parses; the grouping loop adds its name
    at the end of the list of its code and leaves the other codes alone;
    and in a run on a well-formed input the line is one of the lines of
    the output. *)
Theorem empty_fields_accepted code name :
  count SEMI code = 0 → count SEMI name = 0 → code = "" ∨ name = "" →
  let line := code +:+ String SEMI name in
  parse_line line = Ok (code, name)
  ∧ (∀ d, ∃ d',
       group_line line d = Ok d'
       ∧ get code d' = get code d ++ [name]
       ∧ ∀ k, k ≠ code → get k d' = get k d)
  ∧ (∀ fs text,
       fs !! cities_txt = Some text → well_formed text →
       line ∈ content text →
       ∃ fs' out,
         formatter fs = (Ok (), fs') ∧ fs' !! tmp_txt = Some out
         ∧ line +:+ String LF "" ∈ readlines out).
Proof.
  intros Hcode Hname _ line.
  assert (parse_line line = Ok (code, name)) as Hparse
    by by apply parse_line_join.
  split; [done|]. split.
  - intros d. exists (add code name d). rewrite group_line_add, Hparse.
    split; [done|]. split; [apply get_add|].
    intros k Hk. by apply get_add_ne.
  - intros fs text Hfs Hwf Hline.
    destruct (formatter_well_formed _ _ Hfs Hwf) as (ps & Hrec & Hrun & Hout).
    eexists _, _. split; [exact Hrun|]. split; [apply lookup_insert_eq|].
    rewrite readlines_render_all
      by (apply output_good; by eapply records_good).
    assert ((code, name) ∈ ps) as Hin.
    { rewrite records_well_formed in Hrec by done. simplify_eq.
      apply list_elem_of_fmap. exists line. split; [|done].
      pose proof (parse_line_Ok_count _ _ _ Hparse) as Hone.
      rewrite parse_line_ok in Hparse by done. congruence. }
    apply list_elem_of_fmap. exists (code, name).
    split; [by rewrite render_line|]. by rewrite output_perm.
Qed.

Lemma empty_fields_accepted_witness :
  count SEMI "AB" = 0 ∧ count SEMI "" = 0
  ∧ parse_line "AB;" = Ok ("AB", "")
  ∧ (∀ d, ∃ d',
       group_line "AB;" d = Ok d'
       ∧ get "AB" d' = get "AB" d ++ [""]
       ∧ ∀ k, k ≠ "AB" → get k d' = get k d)
  ∧ (∀ fs text,
       fs !! cities_txt = Some text → well_formed text →
       "AB;" ∈ content text →
       ∃ fs' out,
         formatter fs = (Ok (), fs') ∧ fs' !! tmp_txt = Some out
         ∧ "AB;" +:+ String LF "" ∈ readlines out).
Proof.
  split; [reflexivity|]. split; [reflexivity|].
  apply (empty_fields_accepted "AB" ""); [reflexivity | reflexivity | by right].
Defined.

(** The two lines named in C10, run through the script. *)
Example formatter_empty_fields :
  let text := "AB;" +:+ eol +:+ ";name" +:+ eol in
  formatter {[ cities_txt := text ]}
  = (Ok (), {[ cities_txt := text; tmp_txt := text ]}).
Proof. by vm_compute. Qed.


(** * Further properties of the script *)

(** ** Facts used below *)

Section ExtraFacts.
Implicit Types (s t line text k c : string) (d : dict) (sep x : ascii).
Implicit Types (fs : files) (ps : list (string * string)).

Lemma keepends_nil s : keepends s = [] → s = "".
Proof.
  destruct s as [|c s]; [done|]. simpl.
  case_decide; [done|]. by destruct (keepends s).
Qed.

Lemma universal_newlines_nil s : universal_newlines s = "" → s = "".
Proof.
  destruct s as [|c s]; [done|]. simpl.
  case_decide; [|done]. destruct s as [|c' s]; [done|]. by case_decide.
Qed.

Lemma readlines_nil text : readlines text = [] → text = "".
Proof. intros H%keepends_nil. by apply universal_newlines_nil. Qed.

Lemma render_all_nil ps : render_all ps = "" → ps = [].
Proof.
  destruct ps as [|p ps]; [done|]. intros Heq.
  apply (f_equal len) in Heq.
  rewrite render_all_cons, render_line, !len_app in Heq.
  unfold len in Heq. simpl in Heq. lia.
Qed.

Lemma parse_all_lines lines ps :
  parse_all lines = Ok ps → lines = line_of <$> ps.
Proof.
  intros [_ Hps]%parse_all_Ok_inv.
  induction Hps as [|line p lines ps (-> & _) _ IH]; [done|].
  by rewrite fmap_cons, IH.
Qed.

Lemma keys_table ps : keys (table ps) = first_occ ps.*1.
Proof.
  unfold keys, table. rewrite <-list_fmap_compose. apply list_fmap_id.
Qed.

Lemma get_fmap (f : string → list string) (K : list string) k :
  get k ((λ k', (k', f k')) <$> K) = if decide (k ∈ K) then f k else [].
Proof.
  induction K as [|k0 K IH].
  - destruct (decide (k ∈ [])) as [Hk|_]; [|done].
    by apply not_elem_of_nil in Hk.
  - rewrite fmap_cons. simpl. destruct (decide (k0 = k)) as [->|Hne].
    + by rewrite decide_True by left.
    + rewrite IH. destruct (decide (k ∈ K)) as [Hk|Hk].
      * rewrite decide_True; [done|]. by right.
      * rewrite decide_False; [done|]. rewrite elem_of_cons.
        intros [?|?]; done.
Qed.

Lemma get_table k ps : get k (table ps) = cities_of k ps.
Proof.
  unfold table. rewrite (get_fmap (λ k, cities_of k ps)).
  case_decide as Hk; [done|]. rewrite elem_of_first_occ in Hk.
  by rewrite cities_of_nil.
Qed.

Lemma group_Ok_table lines states :
  group lines [] = Ok states →
  ∃ ps, parse_all lines = Ok ps ∧ states = table ps.
Proof.
  rewrite group_foldl. destruct (parse_all lines) as [ps|e]; simpl; [|done].
  intros [= <-]. exists ps. by rewrite foldl_add_table.
Qed.

Lemma split_fields sep s : Forall (λ f, count sep f = 0) (split sep s).
Proof.
  induction s as [|c s IH]; simpl; [by repeat constructor|].
  case_decide as Hc; [by constructor|].
  destruct (split sep s) as [|f l]; [|apply Forall_cons in IH as [Hf Hl]].
  - repeat constructor. simpl. by rewrite decide_False.
  - constructor; [|done]. simpl. by rewrite decide_False.
Qed.

Lemma join_split sep s : join sep (split sep s) = s.
Proof.
  induction s as [|c s IH]; [done|]. simpl.
  pose proof (split_length sep s) as Hlen.
  case_decide as Hc.
  - subst c. destruct (split sep s) as [|f l]; [done|]. simpl in *.
    by rewrite IH.
  - destruct (split sep s) as [|f l]; [done|].
    destruct l as [|g l]; simpl in *; by rewrite <-IH.
Qed.

Lemma joined_keepends s : joined (keepends s) = s.
Proof.
  induction s as [|c s IH]; [done|]. simpl. case_decide as Hc.
  - subst c. simpl. by rewrite IH.
  - destruct (keepends s) as [|l ls]; simpl in *; by rewrite <-IH.
Qed.

Lemma universal_newlines_cons (a : ascii) s :
  universal_newlines (String a s)
  = if decide (a = CR) then
      match s with
      | String a' s' =>
          if decide (a' = LF) then String LF (universal_newlines s')
          else String LF (universal_newlines s)
      | "" => String LF ""
      end
    else String a (universal_newlines s).
Proof. reflexivity. Qed.

Lemma universal_newlines_app s t :
  count CR s = 0 →
  universal_newlines (s +:+ t) = s +:+ universal_newlines t.
Proof.
  induction s as [|a s IH]; intros Hs; [done|].
  rewrite count_cons in Hs. destruct (decide (a = CR)) as [|Ha]; [lia|].
  rewrite !str_app_cons, universal_newlines_cons, decide_False by done.
  by rewrite IH by lia.
Qed.

(** One line and its line end at the head of a text. *)
Lemma readlines_line_end s e t :
  count LF s = 0 → count CR s = 0 → line_end e →
  (e = String CR "" → ∀ t', t ≠ String LF t') →
  readlines (s +:+ e +:+ t) = (s +:+ String LF "") :: readlines t.
Proof.
  intros Hlf Hcr He Ht. unfold readlines.
  rewrite universal_newlines_app by done.
  assert (universal_newlines (e +:+ t) = String LF (universal_newlines t))
    as ->.
  { destruct He as [->|[->| ->]].
    - change (String LF "" +:+ t) with (String LF t).
      rewrite universal_newlines_cons. by rewrite decide_False.
    - change (String CR (String LF "") +:+ t) with (String CR (String LF t)).
      rewrite universal_newlines_cons. by rewrite !decide_True.
    - change (String CR "" +:+ t) with (String CR t).
      rewrite universal_newlines_cons, decide_True by done.
      destruct t as [|a' t']; [done|].
      rewrite decide_False; [done|]. intros ->. by eapply Ht. }
  by apply keepends_app_LF.
Qed.

Lemma with_ends_cons e l lines :
  with_ends e (l :: lines) = l +:+ e +:+ with_ends e lines.
Proof. unfold with_ends. rewrite fmap_cons. simpl. apply str_app_assoc. Qed.

Lemma with_ends_CR_head lines t' :
  Forall (λ l, count LF l = 0 ∧ count CR l = 0) lines →
  with_ends (String CR "") lines ≠ String LF t'.
Proof.
  intros Hlines. destruct Hlines as [|l lines [Hlf _] _]; [done|].
  rewrite with_ends_cons. destruct l as [|a l]; [done|].
  rewrite str_app_cons. intros [= -> _].
  rewrite count_cons in Hlf. by rewrite decide_True in Hlf.
Qed.

Lemma readlines_with_ends e lines :
  line_end e → Forall (λ l, count LF l = 0 ∧ count CR l = 0) lines →
  readlines (with_ends e lines) = (λ l, l +:+ String LF "") <$> lines.
Proof.
  intros He. induction 1 as [|l lines [Hlf Hcr] Hlines IH]; [done|].
  rewrite with_ends_cons, fmap_cons, <-IH.
  apply readlines_line_end; [done..|].
  intros -> t'. by apply with_ends_CR_head.
Qed.

Lemma strip_all s : all isspace s → strip s = "".
Proof. intros Hs. unfold strip. by rewrite lstrip_all. Qed.

Lemma strip_nil_all s : strip s = "" → all isspace s.
Proof.
  intros Hs. destruct (strip_spec s) as (lead & trail & Heq & Hl & Ht).
  rewrite Hs in Heq. rewrite Heq, all_app. by apply andb_True.
Qed.
End ExtraFacts.

(** ** Outcomes of a run *)

(** X1: what can leave the grouping loop.  Started with any dictionary,
    the loop ends well exactly when every line it is given holds exactly
    one separator, and raises [ValueError] otherwise; no [KeyError] comes
    out of the subscript of line 17, whatever the dictionary holds. *)
Theorem group_outcome lines d :
  Forall (λ line, count SEMI line = 1) lines
  ∧ (∃ states, group lines d = Ok states)
  ∨ Exists (λ line, count SEMI line ≠ 1) lines
    ∧ group lines d = Raise ValueError.
Proof.
  revert d. induction lines as [|line lines IH]; intros d.
  - left. split; [constructor | by exists d].
  - simpl. rewrite group_line_add.
    destruct (decide (count SEMI line = 1)) as [Hline|Hline].
    + rewrite parse_line_ok by done. simpl.
      destruct (IH (add (before SEMI line) (after SEMI line) d))
        as [[Hall Hok]|[Hex Hraise]].
      * left. split; [by constructor | done].
      * right. split; [by apply Exists_cons_tl | done].
    + right. split; [by apply Exists_cons_hd|].
      by rewrite parse_line_raise.
Qed.

(** X3: a line with two or more separators, such as a name that holds a
    [;], stops the run with [ValueError]; every file is as it was, the
    records of the other lines are not written. *)
Theorem formatter_too_many_separators fs text line :
  fs !! cities_txt = Some text →
  line ∈ content text → 1 < count SEMI line →
  formatter fs = (Raise ValueError, fs).
Proof.
  intros Hfs Hline Hcount. eapply formatter_raise; [done|].
  apply parse_all_raise, Exists_exists. exists line. split; [done | lia].
Qed.

Lemma formatter_too_many_separators_witness :
  crowded_fs !! cities_txt = Some crowded_text
  ∧ "CA;San;Jose" ∈ content crowded_text
  ∧ 1 < count SEMI "CA;San;Jose"
  ∧ formatter crowded_fs = (Raise ValueError, crowded_fs).
Proof.
  assert ("CA;San;Jose" ∈ content crowded_text) as Hin
    by (vm_compute; repeat constructor).
  assert (1 < count SEMI "CA;San;Jose") as Hcount by (vm_compute; lia).
  split; [reflexivity|]. split; [exact Hin|]. split; [exact Hcount|].
  apply (formatter_too_many_separators crowded_fs crowded_text "CA;San;Jose");
    [reflexivity | exact Hin | exact Hcount].
Defined.

(** X4: a run that ends well changes [tmp.txt] and nothing else: every
    other path, the input file among them, holds what it held before. *)
Theorem formatter_frame fs fs' :
  formatter fs = (Ok (), fs') →
  fs' !! cities_txt = fs !! cities_txt
  ∧ ∀ path, path ≠ tmp_txt → fs' !! path = fs !! path.
Proof.
  intros (text & ps & _ & _ & ->)%formatter_Ok_inv.
  split; [by rewrite lookup_insert_ne|].
  intros path Hpath. by rewrite lookup_insert_ne.
Qed.

Lemma formatter_frame_witness :
  (∃ out, formatter sample_fs' = (Ok (), <[tmp_txt := out]> sample_fs'))
  ∧ (formatter sample_fs').2 !! cities_txt = sample_fs' !! cities_txt
  ∧ ∀ path, path ≠ tmp_txt →
      (formatter sample_fs').2 !! path = sample_fs' !! path.
Proof.
  split; [eexists; vm_compute; reflexivity|].
  apply (formatter_frame sample_fs' (formatter sample_fs').2).
  vm_compute. reflexivity.
Defined.

(** X5: the output file is empty for the empty input file only.  A run
    on an existing input ends well with an empty [tmp.txt] exactly when
    the input text is empty; an input of blank lines is not such a
    case. *)
Theorem formatter_empty_output_iff fs text :
  fs !! cities_txt = Some text →
  formatter fs = (Ok (), <[tmp_txt := ""]> fs) ↔ text = "".
Proof.
  intros Hfs. split.
  - intros (text' & ps & Hfs' & Hrec & Heq)%formatter_Ok_inv.
    simplify_eq. apply (f_equal (λ m : files, m !! tmp_txt)) in Heq.
    rewrite !lookup_insert_eq in Heq. simplify_eq.
    symmetry in Heq. apply render_all_nil in Heq.
    assert (ps = []) as ->.
    { apply Permutation_nil_r. by rewrite <-Heq, output_perm. }
    apply parse_all_lines in Hrec. unfold content in Hrec.
    apply fmap_nil_inv in Hrec. by apply readlines_nil.
  - intros ->. by rewrite (formatter_ok fs "" []).
Qed.

Lemma formatter_empty_output_iff_witness :
  ({[ cities_txt := "" ]} : files) !! cities_txt = Some ""
  ∧ (formatter {[ cities_txt := "" ]}
     = (Ok (), <[tmp_txt := ""]> {[ cities_txt := "" ]}) ↔ "" = "").
Proof.
  split; [reflexivity|].
  apply (formatter_empty_output_iff {[ cities_txt := "" ]} ""). reflexivity.
Defined.

(** X6: a blank line, empty or made of whitespace only, is not skipped:
    once stripped it holds no separator, and the run stops with
    [ValueError] without writing. *)
Theorem formatter_blank_line fs text raw :
  fs !! cities_txt = Some text →
  raw ∈ readlines text → all isspace raw →
  formatter fs = (Raise ValueError, fs).
Proof.
  intros Hfs Hraw Hspace. eapply formatter_raise; [done|].
  apply parse_all_raise, Exists_exists. exists "". split; [|done].
  unfold content. apply list_elem_of_fmap. exists raw.
  split; [|done]. by rewrite strip_all.
Qed.

Lemma formatter_blank_line_witness :
  blank_fs !! cities_txt = Some blank_text
  ∧ "  " +:+ eol ∈ readlines blank_text
  ∧ all isspace ("  " +:+ eol)
  ∧ formatter blank_fs = (Raise ValueError, blank_fs).
Proof.
  assert ("  " +:+ eol ∈ readlines blank_text) as Hin
    by (vm_compute; repeat constructor).
  assert (all isspace ("  " +:+ eol)) as Hspace by (vm_compute; exact I).
  split; [reflexivity|]. split; [exact Hin|]. split; [exact Hspace|].
  apply (formatter_blank_line blank_fs blank_text ("  " +:+ eol));
    [reflexivity | exact Hin | exact Hspace].
Defined.


(** ** The text written *)

(** X7: on a well-formed input the run writes the whole of [tmp.txt] as
    follows: for each code of the input, in the order of first
    occurrence, one line [code;name] ended by LF for each name of that
    code, the names taken in input order and then sorted by length,
    longest first, with a stable sort. *)
Theorem formatter_writes fs text :
  fs !! cities_txt = Some text → well_formed text →
  ∃ ps,
    records text = Ok ps
    ∧ formatter fs
      = (Ok (),
         <[tmp_txt :=
             render_all
               (first_occ ps.*1 ≫= λ k,
                  (k,.) <$> sorted len true (cities_of k ps))]> fs).
Proof.
  intros Hfs Hwf.
  destruct (formatter_well_formed _ _ Hfs Hwf) as (ps & Hrec & Hrun & _).
  exists ps. split; [done|]. by rewrite <-output_blocks.
Qed.

Lemma formatter_writes_witness :
  sample_fs !! cities_txt = Some sample_text ∧ well_formed sample_text
  ∧ ∃ ps,
      records sample_text = Ok ps
      ∧ formatter sample_fs
        = (Ok (),
           <[tmp_txt :=
               render_all
                 (first_occ ps.*1 ≫= λ k,
                    (k,.) <$> sorted len true (cities_of k ps))]> sample_fs).
Proof.
  assert (well_formed sample_text) as Hwf by (vm_compute; repeat constructor).
  split; [reflexivity|]. split; [exact Hwf|].
  apply (formatter_writes sample_fs sample_text); [reflexivity | exact Hwf].
Defined.

(** X8: the lines of the output are the stripped lines of the input in
    another order.  On a well-formed input every line of [tmp.txt] is a
    stripped input line followed by LF, and the lines of the output
    without their line ends are a permutation of the stripped lines of
    the input; so both files have the same number of lines. *)
Theorem formatter_permutes_lines fs text :
  fs !! cities_txt = Some text → well_formed text →
  ∃ fs' out,
    formatter fs = (Ok (), fs') ∧ fs' !! tmp_txt = Some out
    ∧ readlines out = (λ line, line +:+ String LF "") <$> content out
    ∧ content out ≡ₚ content text
    ∧ length (readlines out) = length (readlines text).
Proof.
  intros Hfs Hwf.
  destruct (formatter_well_formed _ _ Hfs Hwf) as (ps & Hrec & Hrun & Hout).
  pose proof (records_good _ _ Hrec) as Hgood.
  pose proof (output_good _ Hgood) as Hgood'.
  assert (content (render_all (output ps)) ≡ₚ content text) as Hperm.
  { rewrite (parse_all_lines _ _ Hrec), (parse_all_lines _ _ Hout).
    by rewrite output_perm. }
  eexists _, _. split; [exact Hrun|]. split; [apply lookup_insert_eq|].
  split; [|split; [exact Hperm|]].
  - rewrite readlines_render_all, content_render_all by done.
    rewrite <-list_fmap_compose. apply list_fmap_ext.
    intros _ p _. simpl. apply render_line.
  - apply Permutation_length in Hperm. unfold content in Hperm.
    by rewrite !length_fmap in Hperm.
Qed.

Lemma formatter_permutes_lines_witness :
  sample_fs !! cities_txt = Some sample_text ∧ well_formed sample_text
  ∧ ∃ fs' out,
      formatter sample_fs = (Ok (), fs') ∧ fs' !! tmp_txt = Some out
      ∧ readlines out = (λ line, line +:+ String LF "") <$> content out
      ∧ content out ≡ₚ content sample_text
      ∧ length (readlines out) = length (readlines sample_text).
Proof.
  assert (well_formed sample_text) as Hwf by (vm_compute; repeat constructor).
  split; [reflexivity|]. split; [exact Hwf|].
  apply (formatter_permutes_lines sample_fs sample_text);
    [reflexivity | exact Hwf].
Defined.

(** X9: the three line ends are read alike.  For lines without LF and
    CR, written one after the other and each followed by the same line
    end, LF, CR LF or a lone CR, [readlines] returns each line followed by
    one LF, and the loader hands the stripped lines to the loop. *)
Theorem load_line_ends fs e lines :
  line_end e → Forall (λ l, count LF l = 0 ∧ count CR l = 0) lines →
  fs !! cities_txt = Some (with_ends e lines) →
  readlines (with_ends e lines) = (λ l, l +:+ String LF "") <$> lines
  ∧ load fs = Ok (strip <$> lines).
Proof.
  intros He Hlines Hfs.
  assert (readlines (with_ends e lines) = (λ l, l +:+ String LF "") <$> lines)
    as Hread by by apply readlines_with_ends.
  split; [done|]. unfold load. rewrite Hfs, Hread. f_equal.
  rewrite <-list_fmap_compose. apply list_fmap_ext.
  intros _ l _. simpl. by apply strip_app_space.
Qed.

Lemma load_line_ends_witness :
  let e := String CR (String LF "") in
  let lines := ["AB;x"; ""; " CA;foo "] in
  let fs : files := {[ cities_txt := with_ends e lines ]} in
  line_end e ∧ Forall (λ l, count LF l = 0 ∧ count CR l = 0) lines
  ∧ fs !! cities_txt = Some (with_ends e lines)
  ∧ readlines (with_ends e lines) = (λ l, l +:+ String LF "") <$> lines
  ∧ load fs = Ok (strip <$> lines).
Proof.
  intros e lines fs.
  assert (line_end e) as He by (right; left; reflexivity).
  assert (Forall (λ l, count LF l = 0 ∧ count CR l = 0) lines) as Hlines
    by (repeat constructor).
  split; [exact He|]. split; [exact Hlines|]. split; [reflexivity|].
  apply (load_line_ends fs e lines); [exact He | exact Hlines | reflexivity].
Defined.

(** The line ends of the mixed sample, read. *)
Example readlines_crlf_text :
  readlines crlf_text = ["AB;x" +:+ eol; "CA;foo" +:+ eol; "AB;long" +:+ eol].
Proof. reflexivity. Qed.

(** ** Lines and fields *)

(** X10: parsing a line and joining a record with [;] undo each other.
    The parser returns [(code, name)] exactly for the line [code;name]
    with no [;] in [code] nor in [name]; no character of the line is
    dropped or changed, whitespace next to the separator included. *)
Theorem parse_line_round_trip line code name :
  parse_line line = Ok (code, name)
  ↔ line = code +:+ String SEMI name
    ∧ count SEMI code = 0 ∧ count SEMI name = 0.
Proof.
  split; [apply parse_line_inv|].
  intros (-> & Hcode & Hname). by apply parse_line_join.
Qed.

(** X11: [split] cuts at every separator and loses nothing.  A string
    with [n] separators gives [n + 1] fields, no field holds the
    separator, and joining the fields with the separator gives the string
    back. *)
Theorem split_join sep s :
  length (split sep s) = S (count sep s)
  ∧ Forall (λ f, count sep f = 0) (split sep s)
  ∧ join sep (split sep s) = s.
Proof.
  split; [apply split_length|]. split; [apply split_fields|].
  apply join_split.
Qed.

(** X12: [strip] returns the empty string exactly on the strings made of
    whitespace only, and stripping twice is stripping once. *)
Theorem strip_empty_iff s :
  (strip s = "" ↔ all isspace s) ∧ strip (strip s) = strip s.
Proof.
  split; [|apply strip_strip].
  split; [apply strip_nil_all | apply strip_all].
Qed.

(** X13: [readlines] loses no character of the text it reads.  The
    lines, one after the other, give back the text with its line ends
    turned into LF; every line is non-empty, no line holds a CR, and an
    LF stands at the end of a line only. *)
Theorem readlines_joined text :
  joined (readlines text) = universal_newlines text
  ∧ Forall (λ l, l ≠ "" ∧ count CR l = 0 ∧ raw_line l) (readlines text).
Proof.
  split; [apply joined_keepends|]. unfold readlines.
  pose proof (keepends_raw (universal_newlines text)) as Hraw.
  pose proof (keepends_count CR (universal_newlines text)) as Hcr.
  rewrite universal_newlines_CR in Hcr.
  assert (Forall (λ l, l ≠ "") (keepends (universal_newlines text))) as Hne.
  { generalize (universal_newlines text). intros s.
    induction s as [|c s IH]; [constructor|]. simpl. case_decide.
    - by constructor.
    - destruct (keepends s) as [|l ls]; [by repeat constructor|].
      apply Forall_cons in IH as [_ IH]. by constructor. }
  eapply Forall_impl;
    [apply Forall_and; split;
       [exact Hne | apply Forall_and; split; [exact Hcr | exact Hraw]]|].
  intros l (? & ? & ?). simpl in *. split; [done|]. split; [lia | done].
Qed.

(** X14: what the fields of a record can hold.  In every record read
    from a text, the code does not start with whitespace and the name
    does not end with whitespace (the line was stripped), neither holds a
    [;], an LF or a CR; whitespace at the other two ends is kept. *)
Theorem records_fields text ps :
  records text = Ok ps →
  Forall (λ p,
    (∀ c t, p.1 = String c t → isspace c = false)
    ∧ (∀ t c, p.2 = t +:+ String c "" → isspace c = false)
    ∧ count SEMI p.1 = 0 ∧ count SEMI p.2 = 0
    ∧ count LF p.1 = 0 ∧ count LF p.2 = 0
    ∧ count CR p.1 = 0 ∧ count CR p.2 = 0) ps.
Proof.
  intros Hgood%records_good. eapply Forall_impl; [exact Hgood|].
  intros [code name] ((Hstrip & Hlf & Hcr) & Hcode & Hname). simpl in *.
  pose proof (strip_no_space_ends (code +:+ String SEMI name)) as [Hhd Hlast].
  rewrite Hstrip in Hhd, Hlast.
  rewrite count_app, count_cons in Hlf, Hcr.
  split; [|split; [|repeat split; lia]].
  - intros c t ->. by eapply Hhd.
  - intros t c ->. apply (Hlast (code +:+ String SEMI t)).
    by rewrite str_app_assoc.
Qed.

Lemma records_fields_witness :
  records "  AB ; x y " = Ok [("AB ", " x y")]
  ∧ Forall (λ p,
      (∀ c t, p.1 = String c t → isspace c = false)
      ∧ (∀ t c, p.2 = t +:+ String c "" → isspace c = false)
      ∧ count SEMI p.1 = 0 ∧ count SEMI p.2 = 0
      ∧ count LF p.1 = 0 ∧ count LF p.2 = 0
      ∧ count CR p.1 = 0 ∧ count CR p.2 = 0) [("AB ", " x y")].
Proof.
  split; [reflexivity|].
  apply (records_fields "  AB ; x y " [("AB ", " x y")]). reflexivity.
Defined.

(** ** The dictionary and the sort *)

Section ExtraDictFacts.
Implicit Types (k x : string) (d : dict).

Lemma StronglySorted_iff {A} (R1 R2 : relation A) (l : list A) :
  (∀ a b, R1 a b ↔ R2 a b) → StronglySorted R1 l ↔ StronglySorted R2 l.
Proof.
  intros HR. split; induction 1 as [|a l Hl IH Ha]; constructor; try done;
    (eapply Forall_impl; [exact Ha|]); intros b; by apply HR.
Qed.

Lemma keys_cons k (v : list string) d : keys ((k, v) :: d) = k :: keys d.
Proof. reflexivity. Qed.

Lemma keys_setdefault k d :
  keys (setdefault k d) = keys d ++ (if decide (k ∈ keys d) then [] else [k]).
Proof.
  induction d as [|[k0 v] d IH].
  - destruct (decide (k ∈ keys [])) as [Hk|_]; [|done].
    by apply not_elem_of_nil in Hk.
  - simpl setdefault. rewrite keys_cons.
    destruct (decide (k0 = k)) as [->|Hne].
    + rewrite decide_True by left. by rewrite app_nil_r.
    + rewrite keys_cons, IH. simpl. f_equal.
      destruct (decide (k ∈ keys d)) as [Hk|Hk].
      * rewrite decide_True; [done|]. by right.
      * rewrite decide_False; [done|]. rewrite elem_of_cons.
        intros [?|?]; done.
Qed.

Lemma get_setdefault k k' d : get k' (setdefault k d) = get k' d.
Proof.
  induction d as [|[k0 v] d IH]; simpl.
  - by case_decide.
  - destruct (decide (k0 = k)) as [->|Hne]; [done|]. simpl.
    by rewrite IH.
Qed.

Lemma keys_add k x d :
  keys (add k x d) = keys d ++ (if decide (k ∈ keys d) then [] else [k]).
Proof.
  induction d as [|[k0 v] d IH].
  - destruct (decide (k ∈ keys [])) as [Hk|_]; [|done].
    by apply not_elem_of_nil in Hk.
  - simpl add. rewrite keys_cons.
    destruct (decide (k0 = k)) as [->|Hne].
    + rewrite decide_True by left. by rewrite app_nil_r.
    + rewrite keys_cons, IH. simpl. f_equal.
      destruct (decide (k ∈ keys d)) as [Hk|Hk].
      * rewrite decide_True; [done|]. by right.
      * rewrite decide_False; [done|]. rewrite elem_of_cons.
        intros [?|?]; done.
Qed.

Lemma getitem_append_add k x d :
  k ∈ keys d → getitem_append k x d = Ok (add k x d).
Proof.
  induction d as [|[k0 v] d IH]; intros Hk.
  - by apply not_elem_of_nil in Hk.
  - simpl. destruct (decide (k0 = k)) as [->|Hne]; [done|].
    rewrite keys_cons, elem_of_cons in Hk.
    destruct Hk as [->|Hk]; [done|]. by rewrite IH.
Qed.

Lemma getitem_append_missing k x d :
  k ∉ keys d → getitem_append k x d = Raise KeyError.
Proof.
  induction d as [|[k0 v] d IH]; intros Hk; [done|].
  rewrite keys_cons, not_elem_of_cons in Hk. destruct Hk as [Hne Hk].
  simpl. rewrite decide_False by done. by rewrite IH.
Qed.
End ExtraDictFacts.

(** X15: the subscript with [append], [d[k].append(x)].  On a key that
    the dictionary does not hold it raises [KeyError]; on a key that it
    holds it puts [x] at the end of the list of that key, keeps the keys
    and their order, and leaves the lists of the other keys alone. *)
Theorem getitem_append_spec k x d :
  (k ∉ keys d → getitem_append k x d = Raise KeyError)
  ∧ (k ∈ keys d →
     ∃ d', getitem_append k x d = Ok d'
       ∧ keys d' = keys d
       ∧ get k d' = get k d ++ [x]
       ∧ ∀ k', k' ≠ k → get k' d' = get k' d).
Proof.
  split; [apply getitem_append_missing|]. intros Hk.
  exists (add k x d). split; [by apply getitem_append_add|]. split.
  - rewrite keys_add, decide_True by done. apply app_nil_r.
  - split; [apply get_add|]. intros k' Hk'. by apply get_add_ne.
Qed.

(** X16: [d.setdefault(k, [])].  A key that is held is left where it is
    with its list, and the dictionary is unchanged; a new key goes to the
    end with the empty list; no lookup changes its answer.  After it the
    subscript of line 17 cannot raise [KeyError]. *)
Theorem setdefault_spec k d :
  keys (setdefault k d) = keys d ++ (if decide (k ∈ keys d) then [] else [k])
  ∧ (k ∈ keys d → setdefault k d = d)
  ∧ (∀ k', get k' (setdefault k d) = get k' d)
  ∧ ∀ x, ∃ d',
      getitem_append k x (setdefault k d) = Ok d'
      ∧ get k d' = get k d ++ [x].
Proof.
  split; [apply keys_setdefault|]. split; [|split].
  - induction d as [|[k0 v] d IH]; intros Hk.
    + by apply not_elem_of_nil in Hk.
    + simpl. destruct (decide (k0 = k)) as [->|Hne]; [done|].
      rewrite keys_cons, elem_of_cons in Hk.
      destruct Hk as [->|Hk]; [done|]. by rewrite IH.
  - intros k'. apply get_setdefault.
  - intros x. exists (add k x d).
    split; [apply setdefault_getitem_append | apply get_add].
Qed.

(** X17: the dictionary at the end of the grouping loop.  When the loop
    ends well every line was parsed, the keys are the codes of the
    records in the order of their first occurrence, without repetition,
    the list of a key holds the names of that code in input order, and no
    key has an empty list. *)
Theorem group_invariant lines states :
  group lines [] = Ok states →
  ∃ ps,
    parse_all lines = Ok ps
    ∧ keys states = first_occ ps.*1
    ∧ NoDup (keys states)
    ∧ (∀ k, get k states = cities_of k ps)
    ∧ Forall (λ kv, kv.2 ≠ []) states.
Proof.
  intros (ps & Hps & ->)%group_Ok_table. exists ps. split; [done|].
  split; [apply keys_table|]. split.
  { rewrite keys_table. apply NoDup_first_occ. }
  split; [intros k; apply get_table|].
  unfold table. apply Forall_fmap, Forall_forall. intros k Hk. simpl.
  rewrite elem_of_first_occ in Hk.
  pose proof (cities_of_nonempty _ _ Hk) as Hlen.
  intros Hnil. rewrite Hnil in Hlen. simpl in Hlen. lia.
Qed.

Lemma group_invariant_witness :
  ∃ states,
    group (content sample_text) [] = Ok states
    ∧ ∃ ps,
        parse_all (content sample_text) = Ok ps
        ∧ keys states = first_occ ps.*1
        ∧ NoDup (keys states)
        ∧ (∀ k, get k states = cities_of k ps)
        ∧ Forall (λ kv, kv.2 ≠ []) states.
Proof.
  eexists. split; [vm_compute; reflexivity|].
  apply (group_invariant (content sample_text)). vm_compute. reflexivity.
Defined.

(** X18: what [sorted] returns.  For any key and either direction the
    result is a permutation of the argument, and it is the one list that
    is in order (non-increasing keys when [reverse] is set, non-decreasing
    keys otherwise) and keeps the elements of each key in the order of
    the argument. *)
Theorem sorted_spec {A} (key : A → nat) (reverse : bool) (v w : list A) :
  sorted key reverse v ≡ₚ v
  ∧ (w = sorted key reverse v
     ↔ StronglySorted
         (λ a b, if reverse then key b ≤ key a else key a ≤ key b) w
       ∧ ∀ n, filter (λ y, key y = n) w = filter (λ y, key y = n) v).
Proof.
  assert (∀ a b,
    in_order key reverse a b = true
    ↔ (if reverse then key b ≤ key a else key a ≤ key b)) as Hord.
  { intros a b. unfold in_order. destruct reverse; apply Nat.leb_le. }
  split; [apply sorted_perm|]. split.
  - intros ->. split.
    + eapply StronglySorted_iff; [|apply sorted_sorted].
      intros a b. symmetry. apply Hord.
    + intros n. apply sorted_stable.
  - intros [Hw Hstable]. apply sorted_unique; [|done].
    eapply StronglySorted_iff; [|exact Hw]. exact Hord.
Qed.
